(** * Smart Quiz Agent: the live quiz session engine

    A shallow embedding of the live quiz routes of [agent/src/prompts.ts]
    (start-live, join, next, answer, end), of the scoring switch of the
    asynchronous submit route in the same file, and of the question that the
    quiz generator tool of [agent/src/tools/index.ts] builds, followed by the
    properties of the specification that concern them.

    Conventions of the embedding.
    - JavaScript strings are [string]: a character [c] stands for the UTF-16
      code unit of the same number, so the strings of the embedding are the
      JavaScript strings whose code units lie below 256 (Latin-1 text).
      [length], [trim], [toLowerCase], [split], [includes] and
      [JSON.stringify] are the JavaScript functions on these strings: the
      white space below 256 is made of the units 9 to 13, 32 and 160, and
      the letters with a lower case form are A to Z and the units 192 to 222
      other than 215.
    - JavaScript numbers that the routes handle (marks, scores, indices,
      timestamps in milliseconds) are integers and are [Z]. Where the source
      divides and multiplies before it rounds (the partial credit, the
      percentages, the progress) the operations are those of binary64, each
      result rounded to the nearest number of 53 significant bits
      ([JsNumber.double]).
    - Values of unknown shape (request bodies, the [options] column, event
      payloads, response bodies) are [json].
    - A handler is a function from the world (session, tables, event log)
      to a reply and a new world; the session has already been found in
      [liveSessions] by its join code. *)

From Stdlib Require Import ZArith List String Ascii Bool Lia.
From Stdlib Require Import Permutation Sorted DecimalString QArith Qround Qabs.
Import ListNotations.
Local Open Scope string_scope.
Local Open Scope Z_scope.

(** ** JavaScript strings *)

Module JsString.

(** White space and line terminators: TAB, LF, VT, FF, CR, SP and NBSP. *)
Definition is_space (c : ascii) : bool :=
  let n := nat_of_ascii c in
  (((9 <=? n) && (n <=? 13)) || (n =? 32) || (n =? 160))%nat.

Fixpoint trimStart (l : list ascii) : list ascii :=
  match l with
  | c :: l' => if is_space c then trimStart l' else l
  | [] => []
  end.

Definition trim (s : string) : string :=
  string_of_list_ascii
    (rev (trimStart (rev (trimStart (list_ascii_of_string s))))).

(** The lower case form of a unit: 32 above for A to Z and for the
    capital letters from 192 to 222 (215 is the multiplication sign). *)
Definition lower_char (c : ascii) : ascii :=
  let n := nat_of_ascii c in
  if (((65 <=? n) && (n <=? 90))
      || ((192 <=? n) && (n <=? 222) && negb (n =? 215)))%nat
  then ascii_of_nat (n + 32) else c.

Fixpoint toLowerCase (s : string) : string :=
  match s with
  | EmptyString => EmptyString
  | String c s' => String (lower_char c) (toLowerCase s')
  end.

(** [s.split(" ")] *)
Fixpoint split_space (s : string) : list string :=
  match s with
  | EmptyString => [EmptyString]
  | String c s' =>
      let r := split_space s' in
      if Ascii.eqb c " "%char then EmptyString :: r
      else match r with
           | h :: t => String c h :: t
           | [] => [String c EmptyString]
           end
  end.

(** [s.includes(w)] *)
Fixpoint includes (s w : string) : bool :=
  String.prefix w s
  || match s with
     | EmptyString => false
     | String _ s' => includes s' w
     end.

(** [s.length], the number of code units. *)
Definition length (s : string) : Z := Z.of_nat (String.length s).

End JsString.

(** [x.trim().toLowerCase()], the normal form both scoring paths compare. *)
Definition trim_lower (s : string) : string :=
  JsString.toLowerCase (JsString.trim s).

(** ** JavaScript numbers *)

Module JsNumber.

(** The integer part of the binary logarithm of [n / d], for [n, d > 0]. *)
Definition flog2 (n d : Z) : Z :=
  let l := Z.log2 n - Z.log2 d in
  if (if 0 <=? l then d * 2 ^ l <=? n else d <=? n * 2 ^ (- l)) then l else l - 1.

(** [N / d] rounded to the nearest integer, a tie going to the even one. *)
Definition nearest_even (N d : Z) : Z :=
  let q := N / d in
  match 2 * (N mod d) ?= d with
  | Lt => q
  | Gt => q + 1
  | Eq => if Z.even q then q else q + 1
  end.

(** [n / d], for [n, d > 0] and a quotient below [2 ^ 53], rounded to 53
    significant bits: the quotient lies in [2 ^ e, 2 ^ (e + 1)) for
    [e = flog2 n d], and is rounded to a multiple of [2 ^ (e - 52)]. *)
Definition round_pos (n d : Z) : Q :=
  let k := 52 - flog2 n d in
  nearest_even (n * 2 ^ k) d # Z.to_pos (2 ^ k).

(** The binary64 number nearest to the real number [x], a tie going to the
    even significand: the result of an arithmetic operation of JavaScript
    whose exact result is [x]. The model covers the numbers below [2 ^ 53]
    in absolute value, which include every value of a 32-bit integer column
    and every ratio and percentage made of them; from [2 ^ 53] on [x] is
    kept as it is. The exponent is not bounded: no operation of the routes
    comes near the smallest or the largest binary64 number. *)
Definition double (x : Q) : Q :=
  let n := Qnum x in
  let d := Zpos (Qden x) in
  if 2 ^ 53 * d <=? Z.abs n then x
  else if 0 <? n then round_pos n d
  else if n <? 0 then (- round_pos (- n) d)%Q
  else 0%Q.

(** [a / b] and [a * b] on numbers. *)
Definition div (a b : Q) : Q := double (a / b).
Definition mul (a b : Q) : Q := double (a * b).

(** [Math.round]: the nearest integer, a half going up. *)
Definition Math_round (x : Q) : Z := Qfloor (x + (1 # 2))%Q.

End JsNumber.

(** ** JSON values *)

#[local] Set Warnings "-register-all".

Inductive json : Type :=
| JNull
| JBool (b : bool)
| JNum (n : Z)
| JStr (s : string)
| JArr (items : list json)
| JObj (fields : list (string * json)).

Module Json.

(** The value of an own property of a parsed object; for a key given twice
    [JSON.parse] keeps the last one. *)
Fixpoint obj_lookup (k : string) (fs : list (string * json)) : option json :=
  match fs with
  | [] => None
  | (k', v) :: fs' =>
      match obj_lookup k fs' with
      | Some v' => Some v'
      | None => if String.eqb k k' then Some v else None
      end
  end.

(** [v.k] for a data key [k] (left, right, acceptable): [None] is the
    TypeError of reading a property of [null], [Some None] is
    [undefined]. *)
Definition get_prop (v : json) (k : string) : option (option json) :=
  match v with
  | JNull => None
  | JObj fs => Some (obj_lookup k fs)
  | _ => Some None
  end.

Definition truthy (v : json) : bool :=
  match v with
  | JNull => false
  | JBool b => b
  | JNum n => negb (n =? 0)
  | JStr s => negb (String.eqb s EmptyString)
  | JArr _ | JObj _ => true
  end.

(** [a === b] for two values that come from two different [JSON.parse]
    calls: primitives compare by value, arrays and objects are distinct
    references. *)
Definition strict_eq (a b : json) : bool :=
  match a, b with
  | JNull, JNull => true
  | JBool x, JBool y => Bool.eqb x y
  | JNum x, JNum y => x =? y
  | JStr x, JStr y => String.eqb x y
  | _, _ => false
  end.

Definition hex_digit (n : nat) : ascii :=
  if (n <? 10)%nat then ascii_of_nat (48 + n) else ascii_of_nat (87 + n).

(** The escapes of [JSON.stringify]: the quote, the backslash, the short
    forms of the units 8, 9, 10, 12 and 13, and the four hexadecimal digits
    of every other unit below 32. *)
Definition escape_char (c : ascii) : string :=
  let n := nat_of_ascii c in
  if (n =? 34)%nat then String "\"%char (String (ascii_of_nat 34) EmptyString)
  else if (n =? 92)%nat then "\\"
  else if (n =? 8)%nat then "\b"
  else if (n =? 12)%nat then "\f"
  else if (n =? 10)%nat then "\n"
  else if (n =? 13)%nat then "\r"
  else if (n =? 9)%nat then "\t"
  else if (n <? 32)%nat then
    "\u00" ++ String (hex_digit (n / 16)) (String (hex_digit (n mod 16)) EmptyString)
  else String c EmptyString.

Fixpoint escape (s : string) : string :=
  match s with
  | EmptyString => EmptyString
  | String c s' => escape_char c ++ escape s'
  end.

Definition quote (s : string) : string :=
  String (ascii_of_nat 34) (escape s ++ String (ascii_of_nat 34) EmptyString).

Definition number (n : Z) : string := NilZero.string_of_int (Z.to_int n).

Fixpoint commas (l : list string) : string :=
  match l with
  | [] => EmptyString
  | [x] => x
  | x :: l' => x ++ "," ++ commas l'
  end.

(** [JSON.stringify(v)] *)
Fixpoint stringify (v : json) : string :=
  match v with
  | JNull => "null"
  | JBool true => "true"
  | JBool false => "false"
  | JNum n => number n
  | JStr s => quote s
  | JArr l => "[" ++ commas (map stringify l) ++ "]"
  | JObj fs =>
      "{" ++ commas (map (fun kv => quote (fst kv) ++ ":" ++ stringify (snd kv)) fs)
          ++ "}"
  end.

(** [String (v)], the text that [JSON.parse] reads when it is given the
    value [v] instead of a string: an array is its items joined by commas,
    a null item counting as the empty text; an object is
    [[object Object]]. *)
Fixpoint to_string (v : json) : string :=
  match v with
  | JNull => "null"
  | JBool true => "true"
  | JBool false => "false"
  | JNum n => number n
  | JStr s => s
  | JArr l =>
      commas (map (fun x => match x with JNull => EmptyString | _ => to_string x end) l)
  | JObj _ => "[object Object]"
  end.

(** The same for a value that may be [undefined] ([None]). *)
Definition to_string_opt (x : option json) : string :=
  match x with
  | Some v => to_string v
  | None => "undefined"
  end.

End Json.

(** ** Questions

    The snapshot of a question row that [start-live] copies into the session
    (the same columns the submit route reads). [options] is the jsonb column,
    [JNull] when it is NULL; [question_type] is a free string, one of mcq,
    true_false, short_answer, fill_in_blank, matching, ordering. *)

Record Question : Type := mkQuestion {
  qid : string;
  question_text : string;
  question_type : string;
  options : json;
  correct_answer : string;
  marks : Z;
  difficulty : string
}.

(** ** The two scoring paths *)

(** What a scoring expression evaluates to: a verdict with the marks it
    awards, or a TypeError that no [try] block of the handler catches. *)
Inductive Outcome : Type :=
| Scored (isCorrect : bool) (marksAwarded : Z)
| Uncaught.

(** [a === b] where each side is [undefined] ([None]) or a string. *)
Definition opt_string_eqb (a b : option string) : bool :=
  match a, b with
  | None, None => true
  | Some x, Some y => String.eqb x y
  | _, _ => false
  end.

(** [x?.trim().toLowerCase()]: [undefined] when [x] is undefined or null,
    a TypeError ([None]) when [x] has no [trim] method. *)
Definition optional_trim_lower (x : option json) : option (option string) :=
  match x with
  | None | Some JNull => Some None
  | Some (JStr s) => Some (Some (trim_lower s))
  | Some _ => None
  end.

(** [x.trim().toLowerCase()] for a value [x] of unknown shape: a TypeError
    ([None]) unless [x] is a string. *)
Definition plain_trim_lower (x : option json) : option string :=
  match x with
  | Some (JStr s) => Some (trim_lower s)
  | _ => None
  end.

Module Live.

(** POST /api/live/:code/answer:
    [answer?.trim().toLowerCase() === q.correct_answer.trim().toLowerCase()];
    [answer] is the body field, [None] when the body has none. *)
Definition isCorrect (q : Question) (answer : option json) : option bool :=
  match optional_trim_lower answer with
  | None => None
  | Some a => Some (opt_string_eqb a (Some (trim_lower (correct_answer q))))
  end.

(** The marks a live answer earns: [q.marks] is added to the score when the
    answer is correct, and the finalization loop stores
    [ans.correct ? q.marks : 0]. *)
Definition marks_awarded (q : Question) (correct : bool) : Z :=
  if correct then marks q else 0.

Definition score (q : Question) (answer : option json) : Outcome :=
  match isCorrect q answer with
  | None => Uncaught
  | Some c => Scored c (marks_awarded q c)
  end.

End Live.

Section AsyncScoring.

(** [JSON.parse]; [None] is the SyntaxError it throws. *)
Variable JSON_parse : string -> option json.

(** [Math.round (m * (k / n))] for [n > 0]: the division, then the
    product, then the rounding. *)
Definition round_ratio (m k n : Z) : Z :=
  JsNumber.Math_round
    (JsNumber.mul (inject_Z m) (JsNumber.div (inject_Z k) (inject_Z n))).

(** [Math.ceil (m * 0.5)] *)
Definition ceil_half (m : Z) : Z := (m + 1) / 2.

(** [opts?.acceptable] when it is truthy. *)
Definition listed_acceptable (q : Question) : option json :=
  match options q with
  | JNull => None
  | opts =>
      match Json.get_prop opts "acceptable" with
      | Some (Some v) => if Json.truthy v then Some v else None
      | _ => None
      end
  end.

(** [(opts?.acceptable || [q.correct_answer]).map(s => s.trim().toLowerCase())];
    [None] is a TypeError. *)
Definition acceptable_of (q : Question) : option (list string) :=
  match listed_acceptable q with
  | None => Some [trim_lower (correct_answer q)]
  | Some (JArr l) =>
      fold_right
        (fun v acc =>
           match v, acc with
           | JStr s, Some r => Some (trim_lower s :: r)
           | _, _ => None
           end)
        (Some []) l
  | Some _ => None
  end.

(** [sp.k?.trim().toLowerCase()] *)
Definition side (v : json) (k : string) : option (option string) :=
  match Json.get_prop v k with
  | None => None
  | Some x => optional_trim_lower x
  end.

(** The predicate given to [studentPairs.find]; [&&] evaluates the right
    sides only when the left sides are equal. *)
Definition pair_matches (cp sp : json) : option bool :=
  match side sp "left", side cp "left" with
  | Some l1, Some l2 =>
      if opt_string_eqb l1 l2 then
        match side sp "right", side cp "right" with
        | Some r1, Some r2 => Some (opt_string_eqb r1 r2)
        | _, _ => None
        end
      else Some false
  | _, _ => None
  end.

(** [studentPairs.find(...)] on an array: [Some None] is [undefined]. *)
Fixpoint find_pair (cp : json) (sps : list json) : option (option json) :=
  match sps with
  | [] => Some None
  | sp :: sps' =>
      match pair_matches cp sp with
      | None => None
      | Some true => Some (Some sp)
      | Some false => find_pair cp sps'
      end
  end.

(** The loop [for (const cp of correctPairs) { ...; if (match) matchCount++ }];
    [find] exists on arrays only. *)
Fixpoint count_matches (studentPairs : json) (cps : list json) : option Z :=
  match cps with
  | [] => Some 0
  | cp :: cps' =>
      match studentPairs with
      | JArr sps =>
          match find_pair cp sps, count_matches studentPairs cps' with
          | Some m, Some n =>
              Some (match m with
                    | Some v => if Json.truthy v then n + 1 else n
                    | None => n
                    end)
          | _, _ => None
          end
      | _ => None
      end
  end.

(** What [for ... of] iterates on: the items of an array, the characters of
    a string; anything else is not iterable. *)
Definition iterate (v : json) : option (list json) :=
  match v with
  | JArr l => Some l
  | JStr s => Some (map (fun c => JStr (String c EmptyString)) (list_ascii_of_string s))
  | _ => None
  end.

(** The body of the [try] block of a matching question; [None] is any
    exception, which the [catch] turns into an incorrect answer. [answer] is
    [ans.answer], of unknown shape; [JSON.parse] reads its text. *)
Definition matching_try (q : Question) (answer : option json) : option (bool * Z) :=
  match JSON_parse (Json.to_string_opt answer), JSON_parse (correct_answer q) with
  | Some studentPairs, Some correctPairs =>
      match iterate correctPairs with
      | Some cps =>
          match count_matches studentPairs cps with
          | Some matchCount =>
              let len := Z.of_nat (List.length cps) in
              let isCorrect := matchCount =? len in
              (* ratio = len > 0 ? matchCount / len : 0 *)
              let (num, den) := if 0 <? len then (matchCount, len) else (0, 1) in
              Some (isCorrect, round_ratio (marks q) num den)
          | None => None
          end
      | None => None
      end
  | _, _ => None
  end.

Fixpoint every_strict_eq (so co : list json) : bool :=
  match so, co with
  | [], _ => true
  | v :: so', c :: co' => Json.strict_eq v c && every_strict_eq so' co'
  | _ :: _, [] => false
  end.

Definition ordering_try (q : Question) (answer : option json) : option (bool * Z) :=
  match JSON_parse (Json.to_string_opt answer), JSON_parse (correct_answer q) with
  | Some studentOrder, Some correctOrder =>
      let ok :=
        match studentOrder, correctOrder with
        | JArr so, JArr co =>
            (List.length so =? List.length co)%nat && every_strict_eq so co
        | _, _ => false
        end in
      Some (ok, if ok then marks q else 0)
  | _, _ => None
  end.

(** [correctLower.split (" ").filter ((w) => w.length > 3).some ((word) =>
    studentLower.includes (word))] *)
Definition shares_long_word (studentLower correctLower : string) : bool :=
  existsb (JsString.includes studentLower)
          (filter (fun w => 3 <? JsString.length w) (JsString.split_space correctLower)).

(** The scoring switch of POST /api/quizzes/:id/submit for one submitted
    answer: [isCorrect] and [marksAwarded] (the feedback text is left
    out). [answer] is [ans.answer], a field of the request body that the
    route does not check: [None] when the entry has none. Outside a [try]
    block [ans.answer.trim ()] is a TypeError unless the field is a string. *)
Definition score_async (q : Question) (answer : option json) : Outcome :=
  let ty := question_type q in
  if String.eqb ty "mcq" || String.eqb ty "true_false" then
    match plain_trim_lower answer with
    | None => Uncaught
    | Some studentLower =>
        let c := String.eqb studentLower (trim_lower (correct_answer q)) in
        Scored c (if c then marks q else 0)
    end
  else if String.eqb ty "fill_in_blank" then
    match acceptable_of q with
    | None => Uncaught
    | Some acceptable =>
        match plain_trim_lower answer with
        | None => Uncaught
        | Some studentAnswer =>
            let c := existsb (String.eqb studentAnswer) acceptable in
            Scored c (if c then marks q else 0)
        end
    end
  else if String.eqb ty "matching" then
    match matching_try q answer with
    | Some (c, m) => Scored c m
    | None => Scored false 0
    end
  else if String.eqb ty "ordering" then
    match ordering_try q answer with
    | Some (c, m) => Scored c m
    | None => Scored false 0
    end
  else
    match plain_trim_lower answer with
    | None => Uncaught
    | Some studentLower =>
        let correctLower := trim_lower (correct_answer q) in
        if String.eqb studentLower correctLower then Scored true (marks q)
        else if shares_long_word studentLower correctLower
        then Scored false (ceil_half (marks q))
        else Scored false 0
    end.

End AsyncScoring.

(** ** Live session state *)

Inductive Status : Type := waiting | question | results | ended.

Definition Status_eqb (a b : Status) : bool :=
  match a, b with
  | waiting, waiting | question, question | results, results | ended, ended => true
  | _, _ => false
  end.

Definition status_string (st : Status) : string :=
  match st with
  | waiting => "waiting"
  | question => "question"
  | results => "results"
  | ended => "ended"
  end.

(** One entry of [LiveParticipant.answers]; [time] is in seconds. *)
Record AnswerRecord : Type := mkAnswerRecord {
  questionIndex : Z;
  answer : string;
  correct : bool;
  time : Q
}.

Record LiveParticipant : Type := mkParticipant {
  userId : string;
  name : string;
  score : Z;
  answers : list AnswerRecord
}.

(** A JavaScript [Map] with string keys: entries in insertion order, [set]
    on a present key replaces the value in place. *)
Module JsMap.
Section Ops.
Context {V : Type}.

Fixpoint get (k : string) (m : list (string * V)) : option V :=
  match m with
  | [] => None
  | (k', v) :: m' => if String.eqb k k' then Some v else get k m'
  end.

Definition has (k : string) (m : list (string * V)) : bool :=
  match get k m with Some _ => true | None => false end.

Fixpoint set (k : string) (v : V) (m : list (string * V)) : list (string * V) :=
  match m with
  | [] => [(k, v)]
  | (k', v') :: m' =>
      if String.eqb k k' then (k', v) :: m' else (k', v') :: set k v m'
  end.

Definition values (m : list (string * V)) : list V := map snd m.

Definition size (m : list (string * V)) : Z := Z.of_nat (List.length m).
End Ops.
End JsMap.

(** [sseClients], the open connections, belongs to the transport; what
    [broadcastSSE] sends to them is recorded in the world's event log. *)
Record LiveSession : Type := mkSession {
  quizId : string;
  teacherId : string;
  status : Status;
  currentQuestionIndex : Z;
  questionStartedAt : Z;
  questionTimeLimit : Q;
  participants : list (string * LiveParticipant);
  questions : list Question
}.

(** [questions[i]] for a JavaScript number [i]: [undefined] out of range. *)
Definition question_at (qs : list Question) (i : Z) : option Question :=
  if i <? 0 then None else nth_error qs (Z.to_nat i).

(** ** Storage *)

Record UserRow : Type := mkUser { user_id : string; user_name : string }.

(** A row of [quiz_attempts]; [percentage] is the number the source then
    prints with [String]. *)
Record AttemptRow : Type := mkAttempt {
  att_id : string;
  att_quiz_id : string;
  att_student_id : string;
  att_total_marks : Z;
  att_score : Z;
  att_percentage : Q;
  att_status : string;
  att_submitted_at : Z
}.

Record StudentAnswerRow : Type := mkStudentAnswer {
  sa_attempt_id : string;
  sa_question_id : string;
  sa_answer_text : string;
  sa_is_correct : bool;
  sa_marks_awarded : Z;
  sa_ai_feedback : string
}.

(** The tables the live routes touch. *)
Record Db : Type := mkDb {
  users : list UserRow;
  quizAttempts : list AttemptRow;
  studentAnswers : list StudentAnswerRow
}.

(** What the routes draw from outside: [genId n] is the identifier that the
    [n]-th call of [genId ()] draws, and the two other fields tell whether
    the database, in the state given, accepts the row of an insert or
    rejects it (a broken foreign key, a number out of the range of its
    column, ...). *)
Record Env : Type := mkEnv {
  genId : nat -> string;
  accepts_attempt : Db -> AttemptRow -> bool;
  accepts_answer : Db -> StudentAnswerRow -> bool
}.

(** [await db.insert (...).values (row)]: an accepted row is appended;
    [None] is the exception of a rejected one. *)
Definition insert_attempt (env : Env) (r : AttemptRow) (d : Db) : option Db :=
  if accepts_attempt env d r
  then Some (mkDb (users d) (quizAttempts d ++ [r]) (studentAnswers d))
  else None.

Definition insert_answer (env : Env) (r : StudentAnswerRow) (d : Db) : option Db :=
  if accepts_answer env d r
  then Some (mkDb (users d) (quizAttempts d) (studentAnswers d ++ [r]))
  else None.

(** ** Requests, replies and the world *)

Record JwtPayload : Type := mkJwt { jwt_userId : string; role : string }.

(** [res.status(code).json(body)], or an exception that leaves the handler. *)
Inductive Reply : Type :=
| Json (code : Z) (body : json)
| ServerError.

Definition error_body (msg : string) : json := JObj [("error", JStr msg)].

(** One [broadcastSSE (session, event, data)]. *)
Record SseEvent : Type := mkEvent { event : string; data : json }.

Definition sse_message (e : SseEvent) : string :=
  "event: " ++ event e ++ String (ascii_of_nat 10)
    ("data: " ++ Json.stringify (data e)
       ++ String (ascii_of_nat 10) (String (ascii_of_nat 10) EmptyString)).

(** [ids] counts the calls of [genId ()] made so far. *)
Record World : Type := mkWorld {
  session : LiveSession;
  db : Db;
  sse : list SseEvent;
  ids : nat
}.

Definition broadcastSSE (ev : string) (d : json) (log : list SseEvent) : list SseEvent :=
  log ++ [mkEvent ev d].

(** [roleMiddleware (...allowedRoles)] *)
Definition roleMiddleware (allowedRoles : list string) (u : JwtPayload) : bool :=
  existsb (String.eqb (role u)) allowedRoles.

(** ** The leaderboard *)

(** [Array.prototype.sort] with the comparator [(a, b) => b.score - a.score],
    a stable sort: an element stays in front of the later ones whose score
    is not higher than its own. *)
Fixpoint insert_desc (p : LiveParticipant) (l : list LiveParticipant) : list LiveParticipant :=
  match l with
  | [] => [p]
  | x :: l' => if score p <? score x then x :: insert_desc p l' else p :: l
  end.

Fixpoint sort_desc (l : list LiveParticipant) : list LiveParticipant :=
  match l with
  | [] => []
  | p :: l' => insert_desc p (sort_desc l')
  end.

Fixpoint ranked (i : Z) (l : list LiveParticipant) : list json :=
  match l with
  | [] => []
  | p :: l' =>
      JObj [("rank", JNum (i + 1)); ("name", JStr (name p)); ("score", JNum (score p))]
        :: ranked (i + 1) l'
  end.

Definition ranking (s : LiveSession) : list LiveParticipant :=
  sort_desc (JsMap.values (participants s)).

Definition leaderboard (s : LiveSession) : json := JArr (ranked 0 (ranking s)).

(** ** The live quiz routes *)

Record Quiz : Type := mkQuiz {
  quiz_id : string;
  quiz_status : string;
  time_limit_minutes : option Z
}.

(** POST /api/quizzes/:id/start-live, once the quiz row is found: the new
    session, or [None] for the two 400 replies. *)
Definition start_live (quiz : Quiz) (u : JwtPayload) (qs : list Question)
  : option LiveSession :=
  if negb (String.eqb (quiz_status quiz) "published") then None
  else match qs with
       | [] => None
       | _ :: _ =>
           let minutes :=
             match time_limit_minutes quiz with
             | Some m => if m =? 0 then 30 else m
             | None => 30
             end in
           Some {| quizId := quiz_id quiz;
                   teacherId := jwt_userId u;
                   status := waiting;
                   currentQuestionIndex := -1;
                   questionStartedAt := 0;
                   questionTimeLimit :=
                     JsNumber.div (inject_Z (minutes * 60))
                                  (inject_Z (Z.of_nat (List.length qs)));
                   participants := [];
                   questions := qs |}
       end.

Definition start_world (s : LiveSession) (d : Db) : World :=
  {| session := s; db := d; sse := []; ids := 0 |}.

Definition set_participants (s : LiveSession) (ps : list (string * LiveParticipant))
  : LiveSession :=
  {| quizId := quizId s; teacherId := teacherId s; status := status s;
     currentQuestionIndex := currentQuestionIndex s;
     questionStartedAt := questionStartedAt s;
     questionTimeLimit := questionTimeLimit s;
     participants := ps; questions := questions s |}.

(** The three assignments of the next and end routes. *)
Definition set_progress (s : LiveSession) (st : Status) (i started : Z) : LiveSession :=
  {| quizId := quizId s; teacherId := teacherId s; status := st;
     currentQuestionIndex := i;
     questionStartedAt := started;
     questionTimeLimit := questionTimeLimit s;
     participants := participants s; questions := questions s |}.

Definition summary (s : LiveSession) : json :=
  JObj [("status", JStr (status_string (status s)));
        ("participant_count", JNum (JsMap.size (participants s)));
        ("question_count", JNum (Z.of_nat (List.length (questions s))))].

(** [user?.name ?? "Unknown"] for the row selected by id. *)
Definition name_of (d : Db) (uid : string) : string :=
  match find (fun r => String.eqb (user_id r) uid) (users d) with
  | Some r => user_name r
  | None => "Unknown"
  end.

(** POST /api/live/:code/join *)
Definition join (u : JwtPayload) (w : World) : Reply * World :=
  let s := session w in
  if Status_eqb (status s) ended then (Json 400 (error_body "Session has ended"), w)
  else
    let uid := jwt_userId u in
    let w' :=
      if negb (JsMap.has uid (participants s)) then
        let n := name_of (db w) uid in
        let s' := set_participants s
                    (JsMap.set uid (mkParticipant uid n 0 []) (participants s)) in
        {| session := s'; db := db w;
           sse := broadcastSSE "participant_joined"
                    (JObj [("user_id", JStr uid); ("name", JStr n);
                           ("participant_count", JNum (JsMap.size (participants s')))])
                    (sse w);
           ids := ids w |}
      else w in
    (Json 200 (summary (session w')), w').

Definition question_payload (s : LiveSession) (q : Question) : json :=
  JObj [("index", JNum (currentQuestionIndex s));
        ("total", JNum (Z.of_nat (List.length (questions s))));
        ("question_text", JStr (question_text q));
        ("question_type", JStr (question_type q));
        ("options", options q);
        ("marks", JNum (marks q));
        ("difficulty", JStr (difficulty q));
        ("time_limit", JNum (JsNumber.Math_round (questionTimeLimit s)))].

Section Routes.

Variable env : Env.

Definition total_marks (qs : list Question) : Z :=
  fold_left (fun acc q => acc + marks q) qs 0.

(** [totalMarks > 0 ? Math.round ((score / totalMarks) * 100 * 100) / 100 : 0]:
    the division and the two products in turn, then the rounding; the
    result is the number of hundredths that [String] prints. *)
Definition percentage (sc totalMarks : Z) : Q :=
  if 0 <? totalMarks then
    JsNumber.Math_round
      (JsNumber.mul
         (JsNumber.mul (JsNumber.div (inject_Z sc) (inject_Z totalMarks)) 100) 100)
    # 100
  else 0%Q.

Definition feedback (q : Question) (c : bool) : string :=
  if c then "Correct!"
  else "Incorrect. The correct answer is: " ++ correct_answer q.

(** The inner loop [for (const ans of participant.answers)]: the tables it
    leaves, and whether it ran to its end ([false] when an insert was
    rejected: the exception leaves the loops and the handler). *)
Fixpoint save_answers (s : LiveSession) (attemptId : string)
    (l : list AnswerRecord) (d : Db) : Db * bool :=
  match l with
  | [] => (d, true)
  | ans :: l' =>
      match question_at (questions s) (questionIndex ans) with
      | Some q =>
          match insert_answer env
                  (mkStudentAnswer attemptId (qid q) (answer ans) (correct ans)
                     (if correct ans then marks q else 0)
                     (feedback q (correct ans)))
                  d with
          | Some d' => save_answers s attemptId l' d'
          | None => (d, false)
          end
      | None => save_answers s attemptId l' d
      end
  end.

Definition attempt_row (s : LiveSession) (attemptId uid : string)
    (p : LiveParticipant) (now : Z) : AttemptRow :=
  let totalMarks := total_marks (questions s) in
  {| att_id := attemptId;
     att_quiz_id := quizId s;
     att_student_id := uid;
     att_total_marks := totalMarks;
     att_score := score p;
     att_percentage := percentage (score p) totalMarks;
     att_status := "evaluated";
     att_submitted_at := now |}.

(** The loop [for (const [userId, participant] of session.participants)]
    of the next route: the tables and the count of identifiers it leaves,
    and whether it ran to its end. No [try] block and no transaction
    surrounds the inserts: the rows stored before a rejected insert stay. *)
Fixpoint save_attempts (s : LiveSession) (now : Z)
    (ps : list (string * LiveParticipant)) (d : Db) (n : nat) : Db * nat * bool :=
  match ps with
  | [] => (d, n, true)
  | (uid, p) :: ps' =>
      let attemptId := genId env n in
      match insert_attempt env (attempt_row s attemptId uid p now) d with
      | None => (d, S n, false)
      | Some d1 =>
          match save_answers s attemptId (answers p) d1 with
          | (d2, true) => save_attempts s now ps' d2 (S n)
          | (d2, false) => (d2, S n, false)
          end
      end
  end.

Definition ended_body (s : LiveSession) : json :=
  JObj [("status", JStr "ended"); ("leaderboard", leaderboard s)].

Definition quiz_ended (s : LiveSession) (log : list SseEvent) : list SseEvent :=
  broadcastSSE "quiz_ended" (JObj [("leaderboard", leaderboard s)]) log.

(** POST /api/live/:code/next; [now] is the clock at the call. When the
    database rejects an insert of the finalization the handler ends in an
    exception, after the status, the index and the broadcast. *)
Definition next (u : JwtPayload) (now : Z) (w : World) : Reply * World :=
  if negb (roleMiddleware ["teacher"; "admin"] u) then
    (Json 403 (error_body "Insufficient permissions"), w)
  else
    let s := session w in
    if negb (String.eqb (teacherId s) (jwt_userId u)) then
      (Json 403 (error_body "Not the session host"), w)
    else
      let i := currentQuestionIndex s + 1 in
      if Z.of_nat (List.length (questions s)) <=? i then
        let s1 := set_progress s ended i (questionStartedAt s) in
        let log := quiz_ended s1 (sse w) in
        let '(d, n, stored) := save_attempts s1 now (participants s1) (db w) (ids w) in
        (if stored then Json 200 (ended_body s1) else ServerError,
         {| session := s1; db := d; sse := log; ids := n |})
      else
        let s1 := set_progress s question i now in
        match question_at (questions s1) i with
        | None =>
            (ServerError, {| session := s1; db := db w; sse := sse w; ids := ids w |})
        | Some q =>
            (Json 200 (JObj [("status", JStr "question");
                             ("question_index", JNum i);
                             ("total_questions",
                              JNum (Z.of_nat (List.length (questions s1))))]),
             {| session := s1; db := db w;
                sse := broadcastSSE "question" (question_payload s1 q) (sse w);
                ids := ids w |})
        end.

(** [participant.answers.some (a => a.questionIndex === i)] *)
Definition answered (i : Z) (p : LiveParticipant) : bool :=
  existsb (fun a => questionIndex a =? i) (answers p).

(** [answer || ""] for a body field that is undefined, null or a string. *)
Definition answer_text (a : option json) : string :=
  match a with
  | Some (JStr s) => s
  | _ => EmptyString
  end.

(** [const { answer } = req.body]: [body] is [req.body], [None] when the
    request came without a body that [express.json ()] parses. The outer
    [None] is the TypeError of destructuring [undefined] or [null]; the
    inner one is a body without the field. *)
Definition answer_of (body : option json) : option (option json) :=
  match body with
  | None => None
  | Some v => Json.get_prop v "answer"
  end.

(** POST /api/live/:code/answer; [body] is [req.body]. *)
Definition submit_answer (u : JwtPayload) (body : option json) (now : Z) (w : World)
  : Reply * World :=
  let s := session w in
  if negb (Status_eqb (status s) question) then
    (Json 400 (error_body "No active question"), w)
  else
    match JsMap.get (jwt_userId u) (participants s) with
    | None => (Json 400 (error_body "Not a participant"), w)
    | Some p =>
        let i := currentQuestionIndex s in
        if answered i p then (Json 400 (error_body "Already answered"), w)
        else
          match answer_of body, question_at (questions s) i with
          | None, _ | _, None => (ServerError, w)
          | Some ans, Some q =>
              match Live.isCorrect q ans with
              | None => (ServerError, w)
              | Some isCorrect =>
                  let timeTaken :=
                    JsNumber.div (inject_Z (now - questionStartedAt s)) 1000 in
                  let p' :=
                    mkParticipant (userId p) (name p)
                      (if isCorrect then score p + marks q else score p)
                      (answers p ++ [mkAnswerRecord i (answer_text ans) isCorrect timeTaken]) in
                  let s' := set_participants s
                              (JsMap.set (jwt_userId u) p' (participants s)) in
                  let count :=
                    Z.of_nat (List.length
                                (filter (answered i) (JsMap.values (participants s')))) in
                  (Json 200 (JObj [("correct", JBool isCorrect); ("score", JNum (score p'))]),
                   {| session := s'; db := db w;
                      sse := broadcastSSE "answer_update"
                               (JObj [("answered", JNum count);
                                      ("total", JNum (JsMap.size (participants s')))])
                               (sse w);
                      ids := ids w |})
              end
          end
    end.

(** POST /api/live/:code/end *)
Definition end_session (u : JwtPayload) (w : World) : Reply * World :=
  if negb (roleMiddleware ["teacher"; "admin"] u) then
    (Json 403 (error_body "Insufficient permissions"), w)
  else
    let s := session w in
    let s1 := set_progress s ended (currentQuestionIndex s) (questionStartedAt s) in
    (Json 200 (ended_body s1),
     {| session := s1; db := db w; sse := quiz_ended s1 (sse w); ids := ids w |}).

(** *** Sequences of calls *)

Inductive Request : Type :=
| Join (u : JwtPayload)
| Next (u : JwtPayload) (now : Z)
| SubmitAnswer (u : JwtPayload) (body : option json) (now : Z)
| End_ (u : JwtPayload).

Definition handle (r : Request) (w : World) : Reply * World :=
  match r with
  | Join u => join u w
  | Next u now => next u now w
  | SubmitAnswer u body now => submit_answer u body now w
  | End_ u => end_session u w
  end.

Definition step (w : World) (r : Request) : World := snd (handle r w).

Definition run (rs : list Request) (w : World) : World := fold_left step rs w.

(** The worlds a live session can be in: created by [start_live], then
    driven by any sequence of calls. *)
Inductive reachable : World -> Prop :=
| reach_start quiz host qs s d :
    start_live quiz host qs = Some s -> reachable (start_world s d)
| reach_step w r : reachable w -> reachable (step w r).


(** The call of the next route that ends the session: by the host, with no
    question left. *)
Definition finalizing (u : JwtPayload) (w : World) : Prop :=
  roleMiddleware ["teacher"; "admin"] u = true
  /\ teacherId (session w) = jwt_userId u
  /\ Z.of_nat (List.length (questions (session w))) <= currentQuestionIndex (session w) + 1.

End Routes.

(** ** The quiz generator tool

    The body of the loop of [generate_quiz] that builds one question: the
    options and the canonical answer it gives to a question of type [qType],
    its text and its marks. *)

Module Generator.

Definition dq : string := String (ascii_of_nat 34) EmptyString.

Definition pair (l r : string) : json := JObj [("left", JStr l); ("right", JStr r)].

Definition pairs : json :=
  JArr [pair "Term 1" "Definition 1"; pair "Term 2" "Definition 2";
        pair "Term 3" "Definition 3"].

Definition options_of (topic_title qType : string) : json :=
  if String.eqb qType "mcq" then
    JArr [JStr "Option A"; JStr "Option B"; JStr "Option C"; JStr "Option D"]
  else if String.eqb qType "true_false" then JArr [JStr "True"; JStr "False"]
  else if String.eqb qType "fill_in_blank" then
    JObj [("sentence",
           JStr ("[AI should generate a sentence about " ++ dq ++ topic_title ++ dq
                   ++ " with a ___ blank]"));
          ("acceptable", JArr [JStr "answer1"; JStr "answer2"])]
  else if String.eqb qType "matching" then JObj [("pairs", pairs)]
  else if String.eqb qType "ordering" then
    JObj [("items", JArr [JStr "Step 1"; JStr "Step 2"; JStr "Step 3"; JStr "Step 4"]);
          ("correct_order", JArr [JNum 0; JNum 1; JNum 2; JNum 3])]
  else JNull.

Definition correct_answer_of (qType : string) : string :=
  if String.eqb qType "mcq" then "Option A"
  else if String.eqb qType "true_false" then "True"
  else if String.eqb qType "fill_in_blank" then "answer1"
  else if String.eqb qType "matching" then Json.stringify pairs
  else if String.eqb qType "ordering" then
    Json.stringify (JArr [JNum 0; JNum 1; JNum 2; JNum 3])
  else "Sample correct answer".

(** [grade_level] and [material_text] are [None] when absent or empty. *)
Definition text_of (topic_title subject : string) (grade_level material_text : option string)
    (qType diff : string) : string :=
  "[AI should generate a " ++ diff ++ " " ++ qType ++ " question about "
    ++ dq ++ topic_title ++ dq ++ " in " ++ subject
    ++ match grade_level with Some g => " for " ++ g | None => EmptyString end
    ++ match material_text with
       | Some _ => " based on the provided study material"
       | None => EmptyString
       end
    ++ "]".

Definition marks_of (diff : string) : Z :=
  if String.eqb diff "easy" then 1 else if String.eqb diff "medium" then 2 else 3.

(** The generated question, stored under the id [i]. *)
Definition question (i topic_title subject : string)
    (grade_level material_text : option string) (qType diff : string) : Question :=
  {| qid := i;
     question_text := text_of topic_title subject grade_level material_text qType diff;
     question_type := qType;
     options := options_of topic_title qType;
     correct_answer := correct_answer_of qType;
     marks := marks_of diff;
     difficulty := diff |}.

End Generator.

(** * Vocabulary of the properties *)

(** Where a status stands in the life of a session. *)
Definition stage (st : Status) : Z :=
  match st with
  | waiting => 0
  | question => 1
  | results => 2
  | ended => 3
  end.

(** The order of a leaderboard: scores never increase. *)
Definition desc (a b : LiveParticipant) : Prop := score b <= score a.

Definition same_score (v : Z) (p : LiveParticipant) : bool := score p =? v.

Definition Zsum (l : list Z) : Z := fold_right Z.add 0 l.

(** [q.marks] of the question at position [i], 0 when there is none. *)
Definition marks_at (qs : list Question) (i : nat) : Z :=
  match nth_error qs i with
  | Some q => marks q
  | None => 0
  end.

(** The records hold one for question [i] with [correct = true]. *)
Definition answered_correctly (i : Z) (l : list AnswerRecord) : bool :=
  existsb (fun a => (questionIndex a =? i) && correct a) l.

(** The sum of the marks of the questions that the participant has answered
    correctly. *)
Definition earned (s : LiveSession) (p : LiveParticipant) : Z :=
  Zsum (map (fun i => if answered_correctly (Z.of_nat i) (answers p)
                      then marks_at (questions s) i else 0)
            (seq 0 (List.length (questions s)))).

(** The marks a record stands for. *)
Definition record_marks (qs : list Question) (a : AnswerRecord) : Z :=
  if correct a then marks_at qs (Z.to_nat (questionIndex a)) else 0.

(** What a participant must satisfy for the score to be the earned marks:
    the records point at questions, no two at the same one, and the score
    is the sum of what the records stand for. *)
Record participant_ok (qs : list Question) (p : LiveParticipant) : Prop := {
  ok_range :
    Forall (fun a => 0 <= questionIndex a < Z.of_nat (List.length qs)) (answers p);
  ok_nodup : NoDup (map questionIndex (answers p));
  ok_score : score p = Zsum (map (record_marks qs) (answers p))
}.

Definition session_ok (s : LiveSession) : Prop :=
  forall k p, In (k, p) (participants s) -> participant_ok (questions s) p.


(** The keys of an object, in the order they are written. *)
Definition json_keys (v : json) : list string :=
  match v with
  | JObj fs => map fst fs
  | _ => []
  end.

(** The value found in [v] by following the object keys of [path]. *)
Definition at_path (path : list string) (v : json) : option json :=
  fold_left (fun acc k => match acc with
                          | Some (JObj fs) => Json.obj_lookup k fs
                          | _ => None
                          end)
            path (Some v).

(** * Example sessions *)

(** An identifier source for the examples. *)
Definition sample_genId (n : nat) : string := "attempt" ++ Json.number (Z.of_nat n).

(** A database for the examples, which checks what [db/schema.ts] asks of
    the columns the embedding has: the student of an attempt is a row of
    [users], the integer columns hold 32-bit integers, and the percentage
    fits [numeric (5, 2)]. *)
Module Constraints.

Definition int4 (x : Z) : bool := (-2147483648 <=? x) && (x <=? 2147483647).

Definition accepts_attempt (d : Db) (r : AttemptRow) : bool :=
  existsb (fun u => String.eqb (user_id u) (att_student_id r)) (users d)
  && int4 (att_total_marks r) && int4 (att_score r)
  && Qle_bool (Qabs (att_percentage r)) (99999 # 100).

Definition accepts_answer (d : Db) (r : StudentAnswerRow) : bool :=
  int4 (sa_marks_awarded r).

Definition checked (genId : nat -> string) : Env :=
  mkEnv genId accepts_attempt accepts_answer.

End Constraints.

Definition sample_env : Env := Constraints.checked sample_genId.

(** The request body [{ answer: a }]. *)
Definition answering (a : json) : option json := Some (JObj [("answer", a)]).

(** A [JSON.parse] for the examples, given by the texts it knows. *)
Definition parse_table (t : list (string * json)) (s : string) : option json :=
  JsMap.get s t.

(** The scenario of the specification: a quiz of two questions worth one mark
    each, student S1 joins, answers the first correctly and the second
    wrongly, and the host's third next call ends the session. *)
Module Scenario.

Definition quiz : Quiz := mkQuiz "quiz1" "published" (Some 10).

Definition q1 : Question :=
  mkQuestion "q1" "Pick the second letter" "mcq"
    (JArr [JStr "A"; JStr "B"; JStr "C"; JStr "D"]) "B" 1 "easy".

Definition q2 : Question :=
  mkQuestion "q2" "The sky is blue" "true_false"
    (JArr [JStr "True"; JStr "False"]) "True" 1 "easy".

Definition qs : list Question := [q1; q2].

Definition host : JwtPayload := mkJwt "t1" "teacher".
Definition other_teacher : JwtPayload := mkJwt "t2" "teacher".
Definition S1 : JwtPayload := mkJwt "s1" "student".

Definition db0 : Db := mkDb [mkUser "t1" "Tara"; mkUser "s1" "Sam"] [] [].

Definition created : LiveSession :=
  {| quizId := "quiz1"; teacherId := "t1"; status := waiting;
     currentQuestionIndex := -1; questionStartedAt := 0;
     questionTimeLimit := JsNumber.div 600 2; participants := []; questions := qs |}.

Definition w0 : World := start_world created db0.

Definition question_open : list Request := [Join S1; Next host 1000].

Definition first_question : list Request :=
  question_open ++ [SubmitAnswer S1 (answering (JStr "b")) 3000].

Definition to_the_end : list Request :=
  first_question
    ++ [Next host 10000; SubmitAnswer S1 (answering (JStr "False")) 12000; Next host 20000].

(** A student whose token outlives the [users] row: the join succeeds, the
    insert of the attempt at the end violates the foreign key. *)
Definition removed : JwtPayload := mkJwt "s9" "student".

Definition with_removed : list Request :=
  [Join removed; Join S1; Next host 1000; Next host 10000].

Definition board : json :=
  JArr [JObj [("rank", JNum 1); ("name", JStr "Sam"); ("score", JNum 1)]].

Definition ended_reply : Reply :=
  Json 200 (JObj [("status", JStr "ended"); ("leaderboard", board)]).

Definition quiz_ended_events (w : World) : list SseEvent :=
  filter (fun e => String.eqb (event e) "quiz_ended") (sse w).

Definition S1_attempt (attemptId : string) : AttemptRow :=
  {| att_id := attemptId; att_quiz_id := "quiz1"; att_student_id := "s1";
     att_total_marks := 2; att_score := 1; att_percentage := 5000 # 100;
     att_status := "evaluated"; att_submitted_at := 20000 |}.

Definition S1_answers (attemptId : string) : list StudentAnswerRow :=
  [mkStudentAnswer attemptId "q1" "b" true 1 "Correct!";
   mkStudentAnswer attemptId "q2" "False" false 0
     "Incorrect. The correct answer is: True"].

End Scenario.

(** The session of the ranking example: four students join in the order
    A, B, C, D and answer three questions worth 10, 20 and 30 marks. *)
Module RankingExample.

Definition quiz : Quiz := mkQuiz "quiz1" "published" (Some 3).

Definition qs : list Question :=
  [mkQuestion "q1" "First" "mcq" (JArr [JStr "x"; JStr "y"]) "x" 10 "easy";
   mkQuestion "q2" "Second" "true_false" (JArr [JStr "True"; JStr "False"]) "True" 20 "medium";
   mkQuestion "q3" "Third" "mcq" (JArr [JStr "x"; JStr "y"]) "y" 30 "hard"].

Definition host : JwtPayload := mkJwt "t1" "teacher".
Definition A : JwtPayload := mkJwt "a" "student".
Definition B : JwtPayload := mkJwt "b" "student".
Definition C : JwtPayload := mkJwt "c" "student".
Definition D : JwtPayload := mkJwt "d" "student".

Definition db0 : Db :=
  mkDb [mkUser "a" "A"; mkUser "b" "B"; mkUser "c" "C"; mkUser "d" "D"] [] [].

Definition created : LiveSession :=
  {| quizId := "quiz1"; teacherId := "t1"; status := waiting;
     currentQuestionIndex := -1; questionStartedAt := 0;
     questionTimeLimit := JsNumber.div 180 3; participants := []; questions := qs |}.

Definition say (s : string) : option json := answering (JStr s).

Definition calls : list Request :=
  [Join A; Join B; Join C; Join D;
   Next host 1000;
   SubmitAnswer D (say "x") 1500; SubmitAnswer A (say "y") 1600;
   Next host 2000;
   SubmitAnswer B (say "true") 2500; SubmitAnswer C (say " True") 2600;
   Next host 3000;
   SubmitAnswer A (say "Y") 3500; SubmitAnswer C (say "y") 3600;
   SubmitAnswer B (say "y") 3700; SubmitAnswer D (say "x") 3800].

Definition entry (rank : Z) (n : string) (sc : Z) : json :=
  JObj [("rank", JNum rank); ("name", JStr n); ("score", JNum sc)].

Definition final_board : json :=
  JArr [entry 1 "B" 50; entry 2 "C" 50; entry 3 "A" 30; entry 4 "D" 10].

End RankingExample.

(** A short answer that holds a long word of the canonical answer. *)
Module ShortAnswerExample.

Definition q : Question :=
  mkQuestion "q7" "Which process turns light into sugar?" "short_answer" JNull
    "photosynthesis" 2 "medium".

Definition submitted : string := "I think it is photosynthesis".

End ShortAnswerExample.

(** A blank with two acceptable answers, filled with the second one. *)
Module FillExample.

Definition q : Question :=
  mkQuestion "q8" "The formula of ___ is H2O" "fill_in_blank"
    (JObj [("sentence", JStr "The formula of ___ is H2O");
           ("acceptable", JArr [JStr "H2O"; JStr "Water"])])
    "H2O" 2 "easy".

Definition submitted : string := " water".

End FillExample.

(** A short answer with letters outside ASCII: the canonical answer is
    "caf" and e with an acute accent (U+00E9, the code unit 233), the
    submission "CAF" and the capital of that letter (U+00C9, the code unit
    201), after a no-break space (U+00A0) and a space. *)
Module AccentExample.

Definition lower : string := "caf" ++ String (ascii_of_nat 233) EmptyString.
Definition upper : string := "CAF" ++ String (ascii_of_nat 201) EmptyString.
Definition margin : string := String (ascii_of_nat 160) " ".

Definition q : Question :=
  mkQuestion "q7" "Where is coffee served?" "short_answer" JNull lower 1 "easy".

End AccentExample.

(** A quiz of an ordering and a matching question as the generator tool
    writes them. *)
Module LeakExample.

Definition ordering_question : Question :=
  Generator.question "q1" "Cell division" "Biology" None None "ordering" "medium".

Definition matching_question : Question :=
  Generator.question "q2" "Cell division" "Biology" None None "matching" "easy".

Definition quiz : Quiz := mkQuiz "quiz9" "published" None.

Definition created : LiveSession :=
  {| quizId := "quiz9"; teacherId := "t1"; status := waiting;
     currentQuestionIndex := -1; questionStartedAt := 0;
     questionTimeLimit := JsNumber.div 1800 2; participants := [];
     questions := [ordering_question; matching_question] |}.

Definition w0 : World := start_world created Scenario.db0.

End LeakExample.

(** The matching example of the specification: three canonical pairs worth
    three marks, of which the submission has the first and the third. *)
Module MatchingExample.

Definition pair (l r : string) : json := JObj [("left", JStr l); ("right", JStr r)].

Definition canonical : string := "[A-1,B-2,C-3]".
Definition submitted : string := "[a-1,C-3]".
Definition malformed : string := "{not json".

Definition JSON_parse : string -> option json :=
  parse_table
    [(canonical, JArr [pair "A" "1"; pair "B" "2"; pair "C" "3"]);
     (submitted, JArr [pair "a" "1"; pair " C" "3 "]);
     ("[0,1,2]", JArr [JNum 0; JNum 1; JNum 2]);
     ("[0, 1, 2]", JArr [JNum 0; JNum 1; JNum 2]);
     ("7", JNum 7)].

Definition q : Question :=
  mkQuestion "q3" "Match the letters" "matching" JNull canonical 3 "hard".

Definition ordering : Question :=
  mkQuestion "q4" "Order the steps" "ordering" JNull "[0,1,2]" 2 "medium".

End MatchingExample.

(** * Further vocabulary: live sessions *)



(** The question index is where the routes leave it: at least -1, and on a
    question while the status is [question]. *)
Definition index_ok (s : LiveSession) : Prop :=
  -1 <= currentQuestionIndex s
  /\ (status s = question ->
      0 <= currentQuestionIndex s < Z.of_nat (List.length (questions s))).

(** The session has run past its last question. *)
Definition exhausted (s : LiveSession) : Prop :=
  status s = ended /\ Z.of_nat (List.length (questions s)) <= currentQuestionIndex s.

(** Each student is in the map once, under the own id. *)
Definition keyed_ok (s : LiveSession) : Prop :=
  NoDup (map fst (participants s))
  /\ forall k p, In (k, p) (participants s) -> userId p = k.

(** The answer row the finalization writes for a record that points at the
    question [q]. *)
Definition answer_row (attemptId : string) (a : AnswerRecord) (q : Question)
  : StudentAnswerRow :=
  mkStudentAnswer attemptId (qid q) (answer a) (correct a)
    (if correct a then marks q else 0) (feedback q (correct a)).


(** What no route assigns. *)
Definition same_quiz (s s' : LiveSession) : Prop :=
  quizId s' = quizId s /\ teacherId s' = teacherId s
  /\ questions s' = questions s /\ questionTimeLimit s' = questionTimeLimit s.

(** The answer rows the inner loop of the finalization writes for the records
    [l] under the attempt id. *)
Fixpoint answer_rows (s : LiveSession) (attemptId : string) (l : list AnswerRecord)
  : list StudentAnswerRow :=
  match l with
  | [] => []
  | a :: l' =>
      match question_at (questions s) (questionIndex a) with
      | Some q => answer_row attemptId a q :: answer_rows s attemptId l'
      | None => answer_rows s attemptId l'
      end
  end.

(** What the finalization loop stores, participant by participant, when the
    identifier source stands at [n]. *)
Fixpoint saved_rows (env : Env) (s : LiveSession) (now : Z)
    (ps : list (string * LiveParticipant)) (n : nat)
  : list (AttemptRow * list StudentAnswerRow) :=
  match ps with
  | [] => []
  | (uid, p) :: ps' =>
      (attempt_row s (genId env n) uid p now, answer_rows s (genId env n) (answers p))
        :: saved_rows env s now ps' (S n)
  end.

(** What the finalization has stored of [full], the rows of a run in which
    every insert is accepted: all of it ([true]), or the rows before the
    insert that the database rejected ([false]), which was the attempt row or
    an answer row of one participant. *)
Inductive stored_of (full : list (AttemptRow * list StudentAnswerRow))
  : list (AttemptRow * list StudentAnswerRow) -> bool -> Prop :=
| stored_all : stored_of full full true
| stored_before_attempt done x rest :
    full = (done ++ x :: rest)%list -> stored_of full done false
| stored_before_answer done att rows r more rest :
    full = (done ++ (att, rows ++ r :: more) :: rest)%list ->
    stored_of full (done ++ [(att, rows)])%list false.

(** The rank fields of a leaderboard. *)
Definition ranks (board : json) : list (option json) :=
  match board with
  | JArr es => map (at_path ["rank"]) es
  | _ => []
  end.

(** * Further code: the scoring loop of the submit route *)

(** The string holds white space only. *)
Definition is_blank (s : string) : bool :=
  forallb JsString.is_space (list_ascii_of_string s).

(** One entry of [answerRecords], without the attempt id and the feedback
    text; [g_answer_text] is [ans.answer] as it came. *)
Record Graded : Type := mkGraded {
  g_question_id : string;
  g_answer_text : option json;
  g_is_correct : bool;
  g_marks_awarded : Z
}.

(** [new Map (qs.map (q => [q.id, q]))] *)
Definition question_map (qs : list Question) : list (string * Question) :=
  fold_left (fun m q => JsMap.set (qid q) q m) qs [].

(** [ans.question_id] when it is a string, the only values that are keys of
    the map; [ans] is an entry of the [answers] array of the request body,
    of unknown shape. *)
Definition entry_id (ans : json) : option string :=
  match Json.get_prop ans "question_id" with
  | Some (Some (JStr s)) => Some s
  | _ => None
  end.

Section SubmitLoop.

Variable JSON_parse : string -> option json.

(** The loop [for (const ans of submittedAnswers)] of POST
    /api/quizzes/:id/submit, from the running [totalScore], [totalMarks] and
    [answerRecords]; [None] is an exception that leaves the route: the
    TypeError of [ans.question_id] on a null entry, or one of the scoring
    switch. *)
Fixpoint grade_loop (questionMap : list (string * Question)) (subs : list json)
    (totalScore totalMarks : Z) (answerRecords : list Graded)
  : option (Z * Z * list Graded) :=
  match subs with
  | [] => Some (totalScore, totalMarks, answerRecords)
  | ans :: subs' =>
      match Json.get_prop ans "question_id", Json.get_prop ans "answer" with
      | Some (Some (JStr id)), Some answer =>
          match JsMap.get id questionMap with
          | None => grade_loop questionMap subs' totalScore totalMarks answerRecords
          | Some q =>
              match score_async JSON_parse q answer with
              | Uncaught => None
              | Scored isCorrect marksAwarded =>
                  grade_loop questionMap subs' (totalScore + marksAwarded)
                    (totalMarks + marks q)
                    (answerRecords ++ [mkGraded id answer isCorrect marksAwarded])
              end
          end
      | Some _, _ => grade_loop questionMap subs' totalScore totalMarks answerRecords
      | None, _ => None
      end
  end.

(** The loop on [submittedAnswers], the [answers] field of the body, which
    the route has found truthy: a value that is not iterable is a
    TypeError. *)
Definition grade (qs : list Question) (submittedAnswers : json)
  : option (Z * Z * list Graded) :=
  match iterate submittedAnswers with
  | Some subs => grade_loop (question_map qs) subs 0 0 []
  | None => None
  end.

End SubmitLoop.

(** The question ids the submit route knows. *)
Definition known_question (qs : list Question) (id : string) : bool :=
  JsMap.has id (question_map qs).

(** The question ids of the submitted entries, in the order submitted. *)
Definition submitted_ids (submittedAnswers : json) : list string :=
  match iterate submittedAnswers with
  | Some subs =>
      flat_map (fun ans => match entry_id ans with Some id => [id] | None => [] end) subs
  | None => []
  end.

(** * Further code: gamification

    The part of POST /api/quizzes/:id/submit that follows the scoring, the
    helpers it calls and the progress figures of GET /api/student-profile.
    A calendar date (the [last_quiz_date] column, [today]) is the number of
    its day, so that the difference of the two midnights divided by 86400000
    is the difference of the two numbers. *)

(** A row of [student_profiles]. *)
Record StudentProfile : Type := mkProfile {
  xp_total : Z;
  level : Z;
  current_streak : Z;
  longest_streak : Z;
  last_quiz_date : option Z;
  badges : list string;
  quizzes_completed : Z;
  perfect_scores : Z
}.

(** The row that [insert (studentProfiles).values ({ user_id })] creates from
    the column defaults. *)
Definition default_profile : StudentProfile := mkProfile 0 1 0 0 None [] 0 0.

(** [Math.floor (Math.sqrt (xp / 100)) + 1]; [None] is NaN, the result for
    a negative [xp]. For the values of an integer column the integer part
    of the binary64 square root is that of the exact one. *)
Definition calculateLevel (xp : Z) : option Z :=
  if xp <? 0 then None else Some (Z.sqrt (xp / 100) + 1).

(** What the gamification reads besides the profile. *)
Record SubmitFacts : Type := mkFacts {
  correct_count : nat;          (* answerRecords.filter (a => a.is_correct).length *)
  pct : Q;                      (* percentage *)
  prior_attempts : Z;           (* evaluated attempts of the student on the quiz *)
  quiz_time_limit : option Z;   (* quiz?.time_limit_minutes *)
  elapsed_ms : Z;               (* submittedAt - attempt.started_at *)
  today : Z;
  this_attempt : string;        (* attempt_id *)
  evaluated : list (string * option Q)
    (* the student's evaluated attempts: id and parseDecimal (percentage) *)
}.

(** [quiz?.time_limit_minutes] is truthy and
    [timeTaken < quiz.time_limit_minutes * 0.5], where [timeTaken] is
    [elapsed_ms / 60000]. *)
Definition fast (f : SubmitFacts) : bool :=
  match quiz_time_limit f with
  | Some limit =>
      let timeTaken := JsNumber.div (inject_Z (elapsed_ms f)) 60000 in
      negb (limit =? 0)
      && negb (Qle_bool (JsNumber.mul (inject_Z limit) (1 # 2)) timeTaken)
  | None => false
  end.

(** The streak logic. *)
Definition new_streak (p : StudentProfile) (day : Z) : Z :=
  match last_quiz_date p with
  | Some last =>
      let diffDays := day - last in
      if diffDays =? 1 then current_streak p + 1
      else if 1 <? diffDays then 1
      else current_streak p
  | None => 1
  end.

(** [prevAttempts.some (a => a.id !== attempt_id &&
    (parseDecimal (a.percentage) ?? 0) < 40)] *)
Definition hadLowScore (f : SubmitFacts) : bool :=
  existsb (fun a => negb (String.eqb (fst a) (this_attempt f))
                    && match snd a with
                       | Some x => negb (Qle_bool 40 x)
                       | None => true
                       end)
          (evaluated f).

Definition has_badge (b : string) (l : list string) : bool := existsb (String.eqb b) l.

(** [new Set (l)]: the members in the order of their first occurrence. *)
Definition Set_from (l : list string) : list string :=
  fold_left (fun s b => if has_badge b s then s else (s ++ [b])%list) l [].

(** One badge check: under the condition, a badge not yet in [currentBadges]
    is pushed to [newBadges] and added to [currentBadges]. *)
Definition award (b : string) (cond : bool) (st : list string * list string)
  : list string * list string :=
  if cond && negb (has_badge b (fst st)) then ((fst st ++ [b])%list, (snd st ++ [b])%list) else st.

Record Gamified : Type := mkGamified {
  profile_after : StudentProfile;
  xp_earned : Z;
  new_badges : list string;
  leveled_up : bool
}.

(** The XP the submission earns. *)
Definition xpEarned (p : StudentProfile) (f : SubmitFacts) : Z :=
  let xp0 := 50 + Z.of_nat (correct_count f) * 10 in
  let xp1 := if Qeq_bool (pct f) 100 then xp0 + 100 else xp0 in
  let xp2 := if prior_attempts f <=? 1 then xp1 + 20 else xp1 in
  let xp3 := if fast f then xp2 + 30 else xp2 in
  if 3 <=? new_streak p (today f) then xp3 + 25 else xp3.

(** The badge checks, in the order of the source, from [currentBadges] and
    an empty [newBadges]. *)
Definition badge_checks (p : StudentProfile) (f : SubmitFacts)
  : list string * list string :=
  let newStreak := new_streak p (today f) in
  let st0 := (Set_from (badges p), []) in
  let st1 := award "first_steps" true st0 in
  let st2 := award "on_fire" (3 <=? newStreak) st1 in
  let st3 := award "week_warrior" (7 <=? newStreak) st2 in
  let st4 := award "perfect_score" (Qeq_bool (pct f) 100) st3 in
  let st5 := award "quiz_master" (10 <=? quizzes_completed p + 1) st4 in
  let st6 := award "speed_demon" (fast f) st5 in
  award "comeback_kid" (Qle_bool 80 (pct f) && hadLowScore f) st6.

(** The gamification of one submission: the updated profile row and the
    figures of the reply. A level that is NaN is not a value of the integer
    column [level]: the update of the profile is rejected ([None]), and the
    handler ends there. *)
Definition gamify (p : StudentProfile) (f : SubmitFacts) : option Gamified :=
  let newStreak := new_streak p (today f) in
  let earned := xpEarned p f in
  let longestStreak := Z.max (longest_streak p) newStreak in
  let newXpTotal := xp_total p + earned in
  let newQuizzesCompleted := quizzes_completed p + 1 in
  let newPerfectScores :=
    if Qeq_bool (pct f) 100 then perfect_scores p + 1 else perfect_scores p in
  let (currentBadges, newBadges) := badge_checks p f in
  match calculateLevel newXpTotal with
  | None => None
  | Some newLevel =>
      Some {| profile_after :=
                {| xp_total := newXpTotal;
                   level := newLevel;
                   current_streak := newStreak;
                   longest_streak := longestStreak;
                   last_quiz_date := Some (today f);
                   badges := currentBadges;
                   quizzes_completed := newQuizzesCompleted;
                   perfect_scores := newPerfectScores |};
              xp_earned := earned;
              new_badges := newBadges;
              leveled_up := level p <? newLevel |}
  end.

(** The progress figures of GET /api/student-profile: [xp_in_level],
    [xp_needed] and [xp_progress]. *)
Definition xp_in_level (p : StudentProfile) : Z :=
  xp_total p - (level p - 1) ^ 2 * 100.

Definition xp_needed (p : StudentProfile) : Z :=
  level p ^ 2 * 100 - (level p - 1) ^ 2 * 100.

Definition xp_progress (p : StudentProfile) : Z :=
  if 0 <? xp_needed p then round_ratio 100 (xp_in_level p) (xp_needed p) else 100.



(** ** The XP leaderboard table *)










(** * Further code: the event stream

    [broadcastSSE] with the connections it writes to. A connection is known
    by its number; [writable n c] tells whether the write to connection [c]
    during broadcast number [n] goes through or throws. *)

Record Channel : Type := mkChannel {
  sseClients : list nat;
  wire : list (nat * string);   (* what was written, to which connection *)
  broadcasts : nat              (* broadcasts made so far *)
}.

Section Stream.

Variable writable : nat -> nat -> bool.

(** [broadcastSSE (session, event, data)]: the message is written to every
    connection, and the connections whose write throws are dropped. *)
Definition broadcast (e : SseEvent) (ch : Channel) : Channel :=
  let msg := sse_message e in
  let kept := filter (writable (broadcasts ch)) (sseClients ch) in
  {| sseClients := kept;
     wire := (wire ch ++ map (fun c => (c, msg)) kept)%list;
     broadcasts := S (broadcasts ch) |}.

Definition broadcast_all (es : list SseEvent) (ch : Channel) : Channel :=
  fold_left (fun ch e => broadcast e ch) es ch.

End Stream.

(** The messages written to connection [c], in the order written. *)
Definition inbox (c : nat) (ch : Channel) : list string :=
  map snd (filter (fun w => Nat.eqb (fst w) c) (wire ch)).

(** * Further code: the loops of the quiz generator tool *)

(** The arguments of [generate_quiz]; [num_questions] is a whole number. *)
Record GenArgs : Type := mkGenArgs {
  ga_topic_title : string;
  ga_subject : string;
  ga_grade_level : option string;
  ga_num_questions : nat;
  ga_question_types : list string;
  ga_difficulty : string;
  ga_material_text : option string
}.

(** An entry of [generatedQuestions]; the tool gives the question no id, so
    [qid] is empty. *)
Record Generated : Type := mkGenerated {
  gen_question : Question;
  gen_explanation : string;
  gen_order_index : Z
}.

(** [Math.ceil (num_questions / question_types.length)], for at least one
    type. *)
Definition questionsPerType (n k : nat) : nat := ((n + k - 1) / k)%nat.

Definition difficulties (difficulty : string) : list string :=
  if String.eqb difficulty "mixed" then ["easy"; "medium"; "hard"] else [difficulty].

Definition generated (a : GenArgs) (qType diff : string) (orderIndex : Z) : Generated :=
  {| gen_question :=
       Generator.question EmptyString (ga_topic_title a) (ga_subject a)
         (ga_grade_level a) (ga_material_text a) qType diff;
     gen_explanation :=
       "[AI should provide a detailed explanation for why this is the correct answer]";
     gen_order_index := orderIndex |}.

(** The inner loop [for (let i = 0; i < questionsPerType &&
    generatedQuestions.length < num_questions; i++)], with [todo] turns left,
    on [orderIndex] and [generatedQuestions]. *)
Fixpoint generate_type (a : GenArgs) (qType : string) (todo i : nat)
    (st : Z * list Generated) : Z * list Generated :=
  match todo with
  | O => st
  | S todo' =>
      if (List.length (snd st) <? ga_num_questions a)%nat then
        let ds := difficulties (ga_difficulty a) in
        let diff := nth (i mod List.length ds) ds EmptyString in
        let orderIndex := fst st + 1 in
        generate_type a qType todo' (S i)
          (orderIndex, (snd st ++ [generated a qType diff orderIndex])%list)
      else st
  end.

(** The outer loop [for (const qType of question_types)]. *)
Definition generatedQuestions (a : GenArgs) : list Generated :=
  snd (fold_left
         (fun st qType =>
            generate_type a qType
              (questionsPerType (ga_num_questions a) (List.length (ga_question_types a)))
              0 st)
         (ga_question_types a) (0, [])).

(** [total_marks] of the result. *)
Definition generated_total_marks (a : GenArgs) : Z :=
  fold_left (fun sum g => sum + marks (gen_question g)) (generatedQuestions a) 0.

(** The question the tool puts at position [j], counted from 0. *)
Definition planned (a : GenArgs) (j : nat) : Generated :=
  let per := questionsPerType (ga_num_questions a) (List.length (ga_question_types a)) in
  let ds := difficulties (ga_difficulty a) in
  generated a
    (nth (j / per) (ga_question_types a) EmptyString)
    (nth ((j mod per) mod List.length ds) ds EmptyString)
    (Z.of_nat j + 1).

(** * Further examples *)

(** A request to the generator tool: five questions of two types, of mixed
    difficulty; and a [JSON.parse] that reads back the two JSON texts the
    tool writes. *)
Module GeneratorExample.

Definition args : GenArgs :=
  {| ga_topic_title := "Cells"; ga_subject := "Biology"; ga_grade_level := Some "Grade 9";
     ga_num_questions := 5; ga_question_types := ["mcq"; "ordering"];
     ga_difficulty := "mixed"; ga_material_text := None |}.

Definition order : json := JArr [JNum 0; JNum 1; JNum 2; JNum 3].

Definition JSON_parse : string -> option json :=
  parse_table [(Json.stringify Generator.pairs, Generator.pairs);
               (Json.stringify order, order)].

End GeneratorExample.

(** A submission to the scenario's quiz: both questions answered, and one
    answer for a question of another quiz. *)
Module SubmitExample.

Definition entry (id a : string) : json :=
  JObj [("question_id", JStr id); ("answer", JStr a)].

Definition subs : json := JArr [entry "q1" " b"; entry "other" "x"; entry "q2" "False"].

Definition records : list Graded :=
  [mkGraded "q1" (Some (JStr " b")) true 1; mkGraded "q2" (Some (JStr "False")) false 0].

(** A student with 250 XP, on a streak of two days, who submits on the next
    day, fast and with a full score. *)
Definition profile : StudentProfile :=
  {| xp_total := 250; level := 2; current_streak := 2; longest_streak := 4;
     last_quiz_date := Some 19000; badges := ["first_steps"];
     quizzes_completed := 3; perfect_scores := 1 |}.



End SubmitExample.

(** Three connections; the write to connection 2 throws in the second
    broadcast. *)
Module StreamExample.

Definition writable (n c : nat) : bool := negb (Nat.eqb n 1 && Nat.eqb c 2).

Definition channel : Channel := {| sseClients := [1; 2; 3]%nat; wire := []; broadcasts := 0 |}.

Definition events : list SseEvent :=
  [mkEvent "participant_joined" (JObj [("count", JNum 1)]);
   mkEvent "question" (JObj [("index", JNum 0)]);
   mkEvent "quiz_ended" (JObj [("leaderboard", JArr [])])].

End StreamExample.

(** * Further code: the analytics of the questions of a quiz

    The body of [qs.map ((q) => ...)] of GET
    /api/analytics/quiz/:id/questions, on the number of evaluated attempts
    and the answer rows read for them. *)

(** A row of [student_answers] as it is read: [answer_text] and
    [is_correct] may be null. *)
Record AnswerRead : Type := mkAnswerRead {
  ar_attempt_id : string;
  ar_question_id : string;
  ar_answer_text : option string;
  ar_is_correct : option bool
}.

(** [a.is_correct] as a condition. *)
Definition marked_correct (a : AnswerRead) : bool :=
  match ar_is_correct a with Some true => true | _ => false end.

(** [a.is_correct === false] *)
Definition marked_incorrect (a : AnswerRead) : bool :=
  match ar_is_correct a with Some false => true | _ => false end.

(** [a.answer_text] as a condition. *)
Definition has_text (a : AnswerRead) : bool :=
  match ar_answer_text a with
  | Some s => negb (String.eqb s EmptyString)
  | None => false
  end.

(** [(a.answer_text || (empty string)).trim ()] *)
Definition wrong_key (a : AnswerRead) : string :=
  JsString.trim (match ar_answer_text a with Some s => s | None => EmptyString end).

Definition qAnswers (allAnswers : list AnswerRead) (q : Question) : list AnswerRead :=
  filter (fun a => String.eqb (ar_question_id a) (qid q)) allAnswers.

Definition wrongAnswers (allAnswers : list AnswerRead) (q : Question) : list AnswerRead :=
  filter (fun a => negb (marked_correct a) && has_text a) (qAnswers allAnswers q).

(** The loop that fills [answerCounts]; [answerCounts.get (key) || 0] is the
    count held, or 0. *)
Definition answerCounts (wrong : list AnswerRead) : list (string * Z) :=
  fold_left
    (fun m a =>
       let key := wrong_key a in
       JsMap.set key (match JsMap.get key m with Some c => c | None => 0 end + 1) m)
    wrong [].

(** The loop over the entries of [answerCounts], on [mostCommonWrong] and
    [maxCount]. *)
Definition mostCommon (counts : list (string * Z)) : option string * Z :=
  fold_left (fun st e => if snd st <? snd e then (Some (fst e), snd e) else st)
            counts (None, 0).

Record QuestionAnalytics : Type := mkQuestionAnalytics {
  qa_question_id : string;
  qa_question_text : string;
  qa_question_type : string;
  qa_difficulty : string;
  qa_correct_count : Z;
  qa_incorrect_count : Z;
  qa_skipped_count : Z;
  qa_total_responses : Z;
  qa_percent_correct : Z;
  qa_most_common_wrong_answer : option string;
  qa_actual_difficulty : string
}.

Definition questionAnalytics (allAttempts : Z) (allAnswers : list AnswerRead)
    (q : Question) : QuestionAnalytics :=
  let answers := qAnswers allAnswers q in
  let total := Z.of_nat (List.length answers) in
  let correct := Z.of_nat (List.length (filter marked_correct answers)) in
  let incorrect := Z.of_nat (List.length (filter marked_incorrect answers)) in
  let skipped := allAttempts - total in
  let pctCorrect := if 0 <? total then round_ratio 100 correct total else 0 in
  let mostCommonWrong := fst (mostCommon (answerCounts (wrongAnswers allAnswers q))) in
  {| qa_question_id := qid q;
     qa_question_text := question_text q;
     qa_question_type := question_type q;
     qa_difficulty := difficulty q;
     qa_correct_count := correct;
     qa_incorrect_count := incorrect;
     qa_skipped_count := skipped;
     qa_total_responses := total;
     qa_percent_correct := pctCorrect;
     qa_most_common_wrong_answer := mostCommonWrong;
     qa_actual_difficulty :=
       if 80 <=? pctCorrect then "easy" else if 50 <=? pctCorrect then "medium" else "hard" |}.

(** How often the key [k] occurs among [keys]. *)
Definition occurrences (k : string) (keys : list string) : nat :=
  count_occ string_dec keys k.

(** * Properties *)

(** ** The participant map *)

Module JsMapFacts.
Section Facts.
Context {V : Type}.
Implicit Types (k : string) (v : V) (m : list (string * V)).

Lemma get_set_same k v m : JsMap.get k (JsMap.set k v m) = Some v.
Proof.
  induction m as [|[k' v'] m IH]; simpl.
  - now rewrite String.eqb_refl.
  - destruct (String.eqb k k') eqn:E; simpl; rewrite E; auto.
Qed.

Lemma set_absent k v m :
  JsMap.get k m = None -> JsMap.set k v m = (m ++ [(k, v)])%list.
Proof.
  induction m as [|[k' v'] m IH]; simpl; auto.
  destruct (String.eqb k k'); try discriminate.
  intros H. now rewrite IH.
Qed.

Lemma has_set k v m : JsMap.has k (JsMap.set k v m) = true.
Proof. unfold JsMap.has. now rewrite get_set_same. Qed.

Lemma get_In k v m : JsMap.get k m = Some v -> exists k', In (k', v) m.
Proof.
  induction m as [|[k' v'] m IH]; simpl; try discriminate.
  destruct (String.eqb k k').
  - intros [= ->]. eauto.
  - intros H. destruct (IH H) as [k'' Hin]. eauto.
Qed.

(** An entry of the map after [set] is an old entry or holds the new
    value. *)
Lemma In_set k v m x :
  In x (JsMap.set k v m) -> In x m \/ snd x = v.
Proof.
  induction m as [|[k' v'] m IH]; simpl.
  - intros [<-|[]]. now right.
  - destruct (String.eqb k k'); simpl.
    + intros [<-|H]; auto.
    + intros [<-|H]; auto. destruct (IH H); auto.
Qed.

End Facts.
End JsMapFacts.

(** ** Joining *)

Lemma join_registered u w :
  status (session w) <> ended ->
  JsMap.has (jwt_userId u) (participants (session w)) = true ->
  join u w = (Json 200 (summary (session w)), w).
Proof.
  intros Hst Hhas. unfold join.
  destruct (status (session w)); try congruence; simpl; now rewrite Hhas.
Qed.

Lemma join_registers u w :
  status (session w) <> ended ->
  JsMap.has (jwt_userId u) (participants (session (snd (join u w)))) = true
  /\ status (session (snd (join u w))) = status (session w).
Proof.
  intros Hst. unfold join.
  destruct (JsMap.has (jwt_userId u) (participants (session w))) eqn:Hhas;
    destruct (status (session w)) eqn:E; try congruence; simpl;
    rewrite ?Hhas, ?E; auto using JsMapFacts.has_set.
Qed.

(** C9. Joining is idempotent per student. On a session that has not ended,
    a first join of a student who is not yet a participant appends exactly
    one entry with score 0 and no answers; a join of a student who is
    already a participant changes nothing (neither the entry, its score or
    its answer records, nor the event log) and replies with the current
    session summary, so joining twice registers the student once. On an
    ended session the join is refused with "Session has ended" and changes
    nothing. *)
Theorem join_idempotent (u : JwtPayload) (w : World) :
  (status (session w) = ended ->
   join u w = (Json 400 (error_body "Session has ended"), w))
  /\ (status (session w) <> ended ->
      let w1 := snd (join u w) in
      join u w1 = (Json 200 (summary (session w1)), w1)
      /\ (JsMap.has (jwt_userId u) (participants (session w)) = true -> w1 = w)
      /\ (JsMap.has (jwt_userId u) (participants (session w)) = false ->
          participants (session w1)
          = (participants (session w)
               ++ [(jwt_userId u,
                    mkParticipant (jwt_userId u) (name_of (db w) (jwt_userId u)) 0 [])])%list)).
Proof.
  split.
  - intros E. unfold join. now rewrite E.
  - intros Hst w1. split; [|split].
    + destruct (join_registers u w Hst) as [Hhas Hsame].
      apply join_registered; fold w1 in Hhas, Hsame; congruence.
    + intros Hhas. unfold w1. now rewrite join_registered.
    + intros Hno. unfold w1, join.
      destruct (status (session w)); try congruence; simpl; rewrite Hno; simpl;
        apply JsMapFacts.set_absent; unfold JsMap.has in Hno;
        destruct (JsMap.get _ _); congruence.
Qed.

(** The theorem on the scenario: S1 joins the waiting session twice. *)
Lemma join_idempotent_witness :
  let w1 := snd (join Scenario.S1 Scenario.w0) in
  join Scenario.S1 w1 = (Json 200 (summary (session w1)), w1)
  /\ List.length (participants (session w1)) = 1%nat.
Proof.
  split.
  - apply (proj2 (join_idempotent Scenario.S1 Scenario.w0)). simpl. discriminate.
  - reflexivity.
Defined.

(** ** Answering *)

(** An answer for the active question by a participant who already has a
    record for it is refused, and nothing changes. *)
Lemma submit_answer_again u body now w p :
  status (session w) = question ->
  JsMap.get (jwt_userId u) (participants (session w)) = Some p ->
  answered (currentQuestionIndex (session w)) p = true ->
  submit_answer u body now w = (Json 400 (error_body "Already answered"), w).
Proof.
  intros Hst Hget Hans. unfold submit_answer. now rewrite Hst, Hget, Hans.
Qed.

(** C6. When a first [submitAnswer] of a participant for the active question
    has been accepted, a second one by the same participant for that
    question, whatever its body and whenever it comes, is refused with
    "Already answered" and leaves the world as the first call left it: no
    record is appended, the first record and the score are as they were. The
    participant then holds exactly one record for that question. *)
Theorem second_submission_rejected
    (u : JwtPayload) (b1 b2 : option json) (now1 now2 : Z) (w w1 : World) (reply : json) :
  submit_answer u b1 now1 w = (Json 200 reply, w1) ->
  submit_answer u b2 now2 w1 = (Json 400 (error_body "Already answered"), w1)
  /\ exists p1,
       JsMap.get (jwt_userId u) (participants (session w1)) = Some p1
       /\ List.length
            (filter (fun a => questionIndex a =? currentQuestionIndex (session w1))
                    (answers p1)) = 1%nat.
Proof.
  unfold submit_answer at 1.
  destruct (Status_eqb (status (session w)) question) eqn:Hst; simpl; try discriminate.
  destruct (JsMap.get (jwt_userId u) (participants (session w))) as [p|] eqn:Hget;
    try discriminate.
  destruct (answered (currentQuestionIndex (session w)) p) eqn:Hans; try discriminate.
  destruct (answer_of b1) as [a0|]; try discriminate.
  destruct (question_at _ _) as [q|]; try discriminate.
  destruct (Live.isCorrect q a0) as [c|]; try discriminate.
  intros [= <- <-].
  assert (Hq : status (session w) = question)
    by (destruct (status (session w)); simpl in Hst; congruence).
  split.
  - eapply submit_answer_again; simpl; eauto using JsMapFacts.get_set_same.
    unfold answered; simpl. rewrite existsb_app; simpl.
    now rewrite Z.eqb_refl, orb_true_r.
  - eexists; split; [simpl; apply JsMapFacts.get_set_same|]. simpl.
    rewrite filter_app; simpl. rewrite Z.eqb_refl, length_app; simpl.
    assert (Hnone : filter (fun a => questionIndex a =? currentQuestionIndex (session w))
                      (answers p) = []).
    { unfold answered in Hans. revert Hans.
      induction (answers p) as [|a l IH]; simpl; auto.
      destruct (questionIndex a =? _); simpl; auto. discriminate. }
    now rewrite Hnone.
Qed.

(** The theorem on the scenario: S1 answers the first question twice. *)
Lemma second_submission_rejected_witness :
  let w := run sample_env Scenario.question_open Scenario.w0 in
  let w1 := snd (submit_answer Scenario.S1 (answering (JStr "b")) 3000 w) in
  submit_answer Scenario.S1 (answering (JStr "c")) 5000 w1
  = (Json 400 (error_body "Already answered"), w1)
  /\ exists p1,
       JsMap.get "s1" (participants (session w1)) = Some p1
       /\ List.length
            (filter (fun a => questionIndex a =? currentQuestionIndex (session w1))
                    (answers p1)) = 1%nat.
Proof.
  intros w w1.
  apply (second_submission_rejected Scenario.S1 (answering (JStr "b")) (answering (JStr "c"))
           3000 5000 w w1 (JObj [("correct", JBool true); ("score", JNum 1)])).
  vm_compute. reflexivity.
Defined.

(** ** The leaderboard *)

Lemma insert_desc_perm p l : Permutation (insert_desc p l) (p :: l).
Proof.
  induction l as [|x l IH]; simpl; auto.
  destruct (score p <? score x); auto.
  rewrite IH. apply perm_swap.
Qed.

Lemma sort_desc_perm l : Permutation (sort_desc l) l.
Proof.
  induction l as [|p l IH]; simpl; auto.
  rewrite insert_desc_perm. now constructor.
Qed.

Lemma insert_desc_sorted p l :
  StronglySorted desc l -> StronglySorted desc (insert_desc p l).
Proof.
  induction 1 as [|x l Hs IH Hx]; simpl.
  - repeat constructor.
  - destruct (score p <? score x) eqn:E.
    + constructor; auto.
      apply Forall_forall. intros y Hy.
      apply (Permutation_in _ (insert_desc_perm p l)) in Hy.
      destruct Hy as [<-|Hy].
      * unfold desc. apply Z.ltb_lt in E. lia.
      * rewrite Forall_forall in Hx. auto.
    + apply Z.ltb_ge in E. constructor.
      * now constructor.
      * constructor; [exact E|].
        apply Forall_forall. intros y Hy. rewrite Forall_forall in Hx.
        specialize (Hx y Hy). unfold desc in *. lia.
Qed.

Lemma sort_desc_sorted l : StronglySorted desc (sort_desc l).
Proof.
  induction l; simpl; [constructor | now apply insert_desc_sorted].
Qed.

Lemma insert_desc_stable v p l :
  filter (same_score v) (insert_desc p l) = filter (same_score v) (p :: l).
Proof.
  induction l as [|x l IH]; simpl; auto.
  destruct (score p <? score x) eqn:E; simpl; auto.
  rewrite IH. simpl. unfold same_score.
  destruct (score p =? v) eqn:Ep, (score x =? v) eqn:Ex; auto.
  apply Z.eqb_eq in Ep, Ex. apply Z.ltb_lt in E. lia.
Qed.

Lemma sort_desc_stable v l :
  filter (same_score v) (sort_desc l) = filter (same_score v) l.
Proof.
  induction l as [|p l IH]; simpl; auto.
  rewrite insert_desc_stable. simpl. now rewrite IH.
Qed.

(** C8. The leaderboard lists the participants by score, highest first, and
    participants with equal scores in the order of the participant map, which
    is the order in which they joined: the ranking is a rearrangement of the
    participants, its scores never increase, and for every score the
    participants having it appear in the ranking as they do in the map; time
    plays no part. In the session where A, B, C, D join in this order and
    reach the scores 30, 50, 50, 10, both the next route (past the last
    question) and the end route give the ranking B, C, A, D. *)
Theorem leaderboard_order (s : LiveSession) :
  let joined := JsMap.values (participants s) in
  leaderboard s = JArr (ranked 0 (ranking s))
  /\ Permutation (ranking s) joined
  /\ StronglySorted desc (ranking s)
  /\ (forall v, filter (same_score v) (ranking s) = filter (same_score v) joined)
  /\ (forall genId,
        let env := Constraints.checked genId in
        match start_live RankingExample.quiz RankingExample.host RankingExample.qs with
        | None => False
        | Some s0 =>
            let w := run env RankingExample.calls (start_world s0 RankingExample.db0) in
            map (fun p => (name p, score p)) (JsMap.values (participants (session w)))
            = [("A", 30); ("B", 50); ("C", 50); ("D", 10)]
            /\ fst (next env RankingExample.host 4000 w)
               = Json 200 (JObj [("status", JStr "ended");
                                 ("leaderboard", RankingExample.final_board)])
            /\ fst (end_session RankingExample.host w)
               = Json 200 (JObj [("status", JStr "ended");
                                 ("leaderboard", RankingExample.final_board)])
        end).
Proof.
  intros joined. unfold ranking. fold joined.
  split; [reflexivity|].
  split; [apply sort_desc_perm|].
  split; [apply sort_desc_sorted|].
  split; [intros v; apply sort_desc_stable|].
  intros genId. vm_compute. auto.
Qed.

(** ** Scores *)

Lemma Zsum_app l1 l2 : Zsum (l1 ++ l2) = Zsum l1 + Zsum l2.
Proof. induction l1; simpl; lia. Qed.

Lemma Zsum_map_add {A} (f g : A -> Z) l :
  Zsum (map (fun x => f x + g x) l) = Zsum (map f l) + Zsum (map g l).
Proof. induction l; simpl; lia. Qed.

Lemma Zsum_map_ext {A} (f g : A -> Z) l :
  (forall x, In x l -> f x = g x) -> Zsum (map f l) = Zsum (map g l).
Proof.
  induction l as [|x l IH]; simpl; auto.
  intros H. rewrite (H x), IH; auto.
Qed.

Lemma Zsum_map_zero {A} (f : A -> Z) l :
  (forall x, In x l -> f x = 0) -> Zsum (map f l) = 0.
Proof.
  induction l as [|x l IH]; simpl; auto.
  intros H. rewrite (H x), IH; auto.
Qed.

(** A sum with one non-zero term. *)
Lemma Zsum_single (f : nat -> Z) (k : nat) l :
  NoDup l -> In k l ->
  (forall i, In i l -> i <> k -> f i = 0) ->
  Zsum (map f l) = f k.
Proof.
  induction 1 as [|x l Hx Hnd IH]; simpl; [tauto|].
  intros [->|Hin] Hz.
  - rewrite Zsum_map_zero; [lia|].
    intros i Hi. apply Hz; auto. intros ->. contradiction.
  - rewrite IH; auto. rewrite (Hz x); auto. intros ->. contradiction.
Qed.

Lemma answered_correctly_absent i l :
  ~ In i (map questionIndex l) -> answered_correctly i l = false.
Proof.
  induction l as [|a l IH]; simpl; auto.
  intros H. rewrite IH by tauto.
  destruct (questionIndex a =? i) eqn:E; auto.
  apply Z.eqb_eq in E. tauto.
Qed.

(** Summing over the records is summing over the questions. *)
Lemma records_sum_by_question qs l :
  Forall (fun a => 0 <= questionIndex a < Z.of_nat (List.length qs)) l ->
  NoDup (map questionIndex l) ->
  Zsum (map (record_marks qs) l)
  = Zsum (map (fun i => if answered_correctly (Z.of_nat i) l then marks_at qs i else 0)
              (seq 0 (List.length qs))).
Proof.
  induction l as [|a l IH]; intros Hr Hnd.
  - simpl. symmetry. now apply Zsum_map_zero.
  - inversion Hr as [|? ? Ha Hr']; subst. inversion Hnd as [|? ? Hnotin Hnd']; subst.
    change (map (record_marks qs) (a :: l))
      with (record_marks qs a :: map (record_marks qs) l).
    change (Zsum (record_marks qs a :: map (record_marks qs) l))
      with (record_marks qs a + Zsum (map (record_marks qs) l)).
    rewrite (IH Hr' Hnd').
    set (k := Z.to_nat (questionIndex a)).
    set (one := fun i : nat => if (questionIndex a =? Z.of_nat i) && correct a
                               then marks_at qs i else 0).
    assert (Hone : Zsum (map one (seq 0 (List.length qs))) = record_marks qs a).
    { rewrite (Zsum_single one k).
      - unfold one, record_marks, k. rewrite Z2Nat.id by lia.
        rewrite Z.eqb_refl. reflexivity.
      - apply seq_NoDup.
      - apply in_seq. unfold k. lia.
      - intros i _ Hi. unfold one.
        destruct (questionIndex a =? Z.of_nat i) eqn:E; auto.
        apply Z.eqb_eq in E. unfold k in Hi. rewrite E, Nat2Z.id in Hi. tauto. }
    rewrite <- Hone, <- Zsum_map_add.
    apply Zsum_map_ext. intros i _. unfold one. simpl.
    destruct (questionIndex a =? Z.of_nat i) eqn:E; simpl; [|lia].
    apply Z.eqb_eq in E. rewrite <- E.
    rewrite (answered_correctly_absent _ _ Hnotin).
    destruct (correct a); simpl; lia.
Qed.

Lemma participant_ok_earned s p :
  participant_ok (questions s) p -> score p = earned s p.
Proof.
  intros [Hr Hnd Hs]. rewrite Hs. now apply records_sum_by_question.
Qed.

Lemma question_at_Some qs i q :
  question_at qs i = Some q ->
  0 <= i < Z.of_nat (List.length qs) /\ marks_at qs (Z.to_nat i) = marks q.
Proof.
  unfold question_at, marks_at. destruct (i <? 0) eqn:E; try discriminate.
  apply Z.ltb_ge in E. intros H. rewrite H. split; auto.
  assert (Hlt : (Z.to_nat i < List.length qs)%nat)
    by (apply nth_error_Some; congruence).
  lia.
Qed.

Lemma answered_false i p :
  answered i p = false -> ~ In i (map questionIndex (answers p)).
Proof.
  unfold answered. induction (answers p) as [|a l IH]; simpl; auto.
  destruct (questionIndex a =? i) eqn:E; simpl; try discriminate.
  apply Z.eqb_neq in E. intros H [?|?]; auto. now apply IH.
Qed.

(** Appending a record for a question not yet answered, with the score
    raised by that question's marks when the record is correct. *)
Lemma participant_ok_push qs p i q txt (c : bool) t :
  participant_ok qs p ->
  answered i p = false ->
  question_at qs i = Some q ->
  participant_ok qs
    (mkParticipant (userId p) (name p)
       (if c then score p + marks q else score p)
       (answers p ++ [mkAnswerRecord i txt c t])).
Proof.
  intros [Hr Hnd Hs] Hno Hq.
  destruct (question_at_Some _ _ _ Hq) as [Hi Hm].
  constructor; simpl.
  - apply Forall_app. split; auto.
  - rewrite map_app. simpl.
    apply (Permutation_NoDup (Permutation_cons_append _ _)).
    constructor; auto using answered_false.
  - rewrite map_app, Zsum_app, <- Hs. unfold record_marks; simpl.
    rewrite Hm. destruct c; lia.
Qed.

Lemma session_ok_start quiz host qs s :
  start_live quiz host qs = Some s -> session_ok s.
Proof.
  unfold start_live.
  destruct (negb _); try discriminate. destruct qs; try discriminate.
  intros [= <-] k p [].
Qed.

Lemma join_ok u w : session_ok (session w) -> session_ok (session (snd (join u w))).
Proof.
  intros Hok. unfold join.
  destruct (Status_eqb _ _); simpl; auto.
  destruct (negb _); simpl; auto.
  intros k p Hin. simpl in Hin.
  apply JsMapFacts.In_set in Hin. destruct Hin as [Hin|Hp]; [now apply (Hok k)|].
  simpl in Hp. subst p. constructor; simpl; auto. constructor.
Qed.

Lemma submit_answer_ok u ans now w :
  session_ok (session w) -> session_ok (session (snd (submit_answer u ans now w))).
Proof.
  intros Hok. unfold submit_answer.
  destruct (negb _); simpl; auto.
  destruct (JsMap.get _ _) as [p|] eqn:Hget; simpl; auto.
  destruct (answered _ p) eqn:Hans; simpl; auto.
  destruct (answer_of _) as [a0|]; simpl; auto.
  destruct (question_at _ _) as [q|] eqn:Hq; simpl; auto.
  destruct (Live.isCorrect q a0) as [c|]; simpl; auto.
  intros k p0 Hin. simpl in Hin.
  apply JsMapFacts.In_set in Hin. destruct Hin as [Hin|Hp]; [now apply (Hok k)|].
  simpl in Hp. subst p0.
  destruct (JsMapFacts.get_In _ _ _ Hget) as [k' Hk'].
  apply participant_ok_push; eauto.
Qed.

Lemma end_session_ok u w :
  session_ok (session w) -> session_ok (session (snd (end_session u w))).
Proof.
  intros Hok. unfold end_session. destruct (negb _); simpl; auto.
Qed.



Section RoutesFacts.

Variable env : Env.

Lemma save_answers_spec s attemptId l d :
  let r := save_answers env s attemptId l d in
  users (fst r) = users d
  /\ quizAttempts (fst r) = quizAttempts d
  /\ ((snd r = true
       /\ studentAnswers (fst r) = (studentAnswers d ++ answer_rows s attemptId l)%list)
      \/ (snd r = false
          /\ exists rows x more,
               answer_rows s attemptId l = (rows ++ x :: more)%list
               /\ studentAnswers (fst r) = (studentAnswers d ++ rows)%list)).
Proof.
  revert d. induction l as [|a l IH]; intros d; simpl.
  - repeat split; auto. left. now rewrite app_nil_r.
  - destruct (question_at _ _) as [q|]; [|apply IH].
    unfold insert_answer. destruct (accepts_answer _ _ _).
    + destruct (IH (mkDb (users d) (quizAttempts d)
                      (studentAnswers d
                         ++ [mkStudentAnswer attemptId (qid q) (answer a) (correct a)
                               (if correct a then marks q else 0)
                               (feedback q (correct a))])))
        as (H1 & H2 & [(H3 & H4)|(H3 & rows & x & more & H4 & H5)]); simpl in *.
      * repeat split; auto. left. split; auto. now rewrite H4, <- app_assoc.
      * repeat split; auto. right. split; auto.
        exists (answer_row attemptId a q :: rows), x, more. split.
        -- now rewrite H4.
        -- now rewrite H5, <- app_assoc.
    + simpl. repeat split; auto. right. split; auto.
      exists [], (answer_row attemptId a q), (answer_rows s attemptId l).
      split; auto. now rewrite app_nil_r.
Qed.

Lemma stored_of_cons full saved ok x :
  stored_of full saved ok -> stored_of (x :: full) (x :: saved) ok.
Proof.
  intros [|done y rest ->|done att rows r more rest ->].
  - constructor.
  - apply (stored_before_attempt _ (x :: done) y rest). reflexivity.
  - apply (stored_before_answer _ (x :: done) att rows r more rest). reflexivity.
Qed.

(** The loop of the finalization stores the rows of a complete run up to the
    first insert that the database rejects. *)
Lemma save_attempts_spec s now ps d n :
  let r := save_attempts env s now ps d n in
  exists saved,
    stored_of (saved_rows env s now ps n) saved (snd r)
    /\ quizAttempts (fst (fst r)) = (quizAttempts d ++ map fst saved)%list
    /\ studentAnswers (fst (fst r))
       = (studentAnswers d ++ List.concat (map snd saved))%list.
Proof.
  revert d n. induction ps as [|[uid p] ps IH]; intros d n; simpl.
  - exists []. simpl. rewrite !app_nil_r. repeat split; auto. constructor.
  - unfold insert_attempt. destruct (accepts_attempt _ _ _).
    + pose proof (save_answers_spec s (genId env n) (answers p)
                    (mkDb (users d)
                       (quizAttempts d ++ [attempt_row s (genId env n) uid p now])
                       (studentAnswers d))) as Hans.
      destruct (save_answers _ _ _ _ _) as [d2 stored]. simpl in Hans.
      destruct Hans as (_ & H2 & [(-> & H4)|(-> & rows & x & more & H4 & H5)]).
      * destruct (IH d2 (S n)) as (saved & Hst & G1 & G2).
        exists ((attempt_row s (genId env n) uid p now,
                 answer_rows s (genId env n) (answers p)) :: saved).
        split; [now apply stored_of_cons|]. simpl.
        rewrite G1, G2, H2, H4, <- !app_assoc. auto.
      * exists [(attempt_row s (genId env n) uid p now, rows)]. simpl.
        rewrite H2, H5, app_nil_r. repeat split; auto.
        rewrite H4.
        apply (stored_before_answer _ [] _ rows x more
                 (saved_rows env s now ps (S n))). reflexivity.
    + exists []. simpl. rewrite !app_nil_r. repeat split; auto.
      eapply (stored_before_attempt _ []). reflexivity.
Qed.



(** What a finalizing call of the next route does. *)
Lemma next_finalizes u now w :
  finalizing u w ->
  let r := next env u now w in
  let w' := snd r in
  status (session w') = ended
  /\ currentQuestionIndex (session w') = currentQuestionIndex (session w) + 1
  /\ participants (session w') = participants (session w)
  /\ questions (session w') = questions (session w)
  /\ sse w' = quiz_ended (session w') (sse w)
  /\ exists saved stored,
       stored_of (saved_rows env (session w') now (participants (session w)) (ids w))
                 saved stored
       /\ fst r = (if stored then Json 200 (ended_body (session w')) else ServerError)
       /\ quizAttempts (db w') = (quizAttempts (db w) ++ map fst saved)%list
       /\ studentAnswers (db w')
          = (studentAnswers (db w) ++ List.concat (map snd saved))%list.
Proof.
  intros (Hrole & Hhost & Hlast). unfold next.
  rewrite Hrole, Hhost, String.eqb_refl. simpl.
  apply Z.leb_le in Hlast. rewrite Hlast.
  match goal with
  | |- context [save_attempts env ?s ?t ?ps ?d ?n] =>
      pose proof (save_attempts_spec s t ps d n) as Hsp;
      destruct (save_attempts env s t ps d n) as [[d' n'] stored]
  end.
  simpl in *. destruct Hsp as (saved & Hst & H1 & H2).
  repeat split; auto. exists saved, stored. auto.
Qed.

Lemma next_ok u now w :
  session_ok (session w) -> session_ok (session (snd (next env u now w))).
Proof.
  intros Hok. unfold next.
  destruct (negb _); simpl; auto.
  destruct (negb _); simpl; auto.
  destruct (_ <=? _); simpl.
  - destruct (save_attempts _ _ _ _ _ _) as [[? ?] ?]; simpl; auto.
  - destruct (question_at _ _); simpl; auto.
Qed.

Lemma step_ok w r : session_ok (session w) -> session_ok (session (step env w r)).
Proof.
  unfold step. destruct r; simpl;
    auto using join_ok, next_ok, submit_answer_ok, end_session_ok.
Qed.

Lemma reachable_ok w : reachable env w -> session_ok (session w).
Proof.
  induction 1; eauto using session_ok_start, step_ok.
Qed.

Lemma reachable_run rs w : reachable env w -> reachable env (run env rs w).
Proof.
  revert w. induction rs as [|r rs IH]; simpl; auto.
  intros w Hw. apply IH. now constructor.
Qed.




End RoutesFacts.


(** ** The two scoring paths compared *)






(** The asynchronous path on the examples of the specification: two of three
    pairs matched give two of three marks and an incorrect verdict; a text
    that does not parse, or an ordering answer that is not an array, is
    incorrect with no marks; and the live path scores the same matching
    submission by comparing the two texts. *)
Lemma async_scoring_examples :
  let score q a := score_async MatchingExample.JSON_parse q (Some (JStr a)) in
  score MatchingExample.q MatchingExample.submitted = Scored false 2
  /\ score MatchingExample.q MatchingExample.canonical = Scored true 3
  /\ score MatchingExample.q MatchingExample.malformed = Scored false 0
  /\ score MatchingExample.ordering "7" = Scored false 0
  /\ score MatchingExample.ordering "[0,1,2]" = Scored true 2
  /\ Live.score MatchingExample.q (Some (JStr MatchingExample.submitted)) = Scored false 0.
Proof. vm_compute. auto 8. Qed.

(** ** The host routes on the scenario *)

Lemma Scenario_created :
  start_live Scenario.quiz Scenario.host Scenario.qs = Some Scenario.created.
Proof. reflexivity. Qed.

(** The scenario runs as the specification tells it: the attempt stored for
    S1 has score 1 of 2, 50 percent, and is marked evaluated, with one row
    for each of the two answers. *)
Lemma Scenario_runs genId :
  let env := Constraints.checked genId in
  let w := run env Scenario.to_the_end Scenario.w0 in
  status (session w) = ended
  /\ currentQuestionIndex (session w) = 2
  /\ quizAttempts (db w) = [Scenario.S1_attempt (genId 0%nat)]
  /\ studentAnswers (db w) = Scenario.S1_answers (genId 0%nat)
  /\ List.length (Scenario.quiz_ended_events w) = 1%nat.
Proof. vm_compute. auto 6. Qed.

(** C1. The session of the scenario has ended; the host calls next once
    more. The call is not refused: it replies 200 with the ended status and
    the leaderboard, raises the question index from 2 to 3, broadcasts
    [quiz_ended] a second time and runs the finalization again, which stores
    a second attempt row (and two more answer rows) for S1. Only the
    participants, with their scores and records, stay as they were. *)
Theorem next_on_ended_session_runs_again genId :
  let env := Constraints.checked genId in
  let w := run env Scenario.to_the_end Scenario.w0 in
  let w' := snd (next env Scenario.host 30000 w) in
  status (session w) = ended
  /\ fst (next env Scenario.host 30000 w) = Scenario.ended_reply
  /\ currentQuestionIndex (session w) = 2
  /\ currentQuestionIndex (session w') = 3
  /\ participants (session w') = participants (session w)
  /\ quizAttempts (db w) = [Scenario.S1_attempt (genId 0%nat)]
  /\ map att_student_id (quizAttempts (db w')) = ["s1"; "s1"]
  /\ map att_id (quizAttempts (db w')) = [genId 0%nat; genId 1%nat]
  /\ List.length (studentAnswers (db w')) = 4%nat
  /\ List.length (Scenario.quiz_ended_events w) = 1%nat
  /\ List.length (Scenario.quiz_ended_events w') = 2%nat.
Proof. vm_compute. auto 12. Qed.

(** C2. The host creates the session of the scenario, ends it at once with
    the end route and then calls next: the status goes from [waiting] to
    [ended] and from there back to [question], with the first question
    broadcast and open for answers (S1, who joined before the end, has the
    answer accepted). *)
Theorem ended_session_reopens genId :
  let env := Constraints.checked genId in
  let w1 := run env [Join Scenario.S1; End_ Scenario.host] Scenario.w0 in
  let w2 := step env w1 (Next Scenario.host 1000) in
  status (session Scenario.w0) = waiting
  /\ status (session w1) = ended
  /\ status (session w2) = question
  /\ currentQuestionIndex (session w2) = 0
  /\ map event (sse w2) = ["participant_joined"; "quiz_ended"; "question"]
  /\ fst (submit_answer Scenario.S1 (answering (JStr "B")) 2000 w2)
     = Json 200 (JObj [("correct", JBool true); ("score", JNum 1)]).
Proof. vm_compute. auto 8. Qed.

(** C4. A teacher who is not the host of the session calls the two host
    routes while the first question of the scenario is open. The next route
    refuses with 403 and changes nothing; the end route does not compare the
    caller with [teacherId]: it replies 200 and the session is ended. *)
Theorem end_route_ignores_host genId :
  let env := Constraints.checked genId in
  let w := run env Scenario.first_question Scenario.w0 in
  teacherId (session w) <> jwt_userId Scenario.other_teacher
  /\ next env Scenario.other_teacher 5000 w
     = (Json 403 (error_body "Not the session host"), w)
  /\ fst (end_session Scenario.other_teacher w) = Scenario.ended_reply
  /\ status (session w) = question
  /\ status (session (snd (end_session Scenario.other_teacher w))) = ended.
Proof.
  vm_compute. split; [discriminate|]. auto 8.
Qed.

(** C5. The host ends the session of the scenario with the end route after
    both questions have been answered: the status becomes [ended] and the
    leaderboard is broadcast, but no attempt row and no answer row is
    stored, whereas the next route at the same state stores both. *)
Theorem end_route_stores_nothing genId :
  let env := Constraints.checked genId in
  let w := run env (removelast Scenario.to_the_end) Scenario.w0 in
  let w_end := snd (end_session Scenario.host w) in
  let w_next := snd (next env Scenario.host 20000 w) in
  map (fun kp => (fst kp, score (snd kp))) (participants (session w)) = [("s1", 1)]
  /\ status (session w_end) = ended
  /\ fst (end_session Scenario.host w) = Scenario.ended_reply
  /\ quizAttempts (db w_end) = []
  /\ studentAnswers (db w_end) = []
  /\ status (session w_next) = ended
  /\ quizAttempts (db w_next) = [Scenario.S1_attempt (genId 0%nat)]
  /\ studentAnswers (db w_next) = Scenario.S1_answers (genId 0%nat).
Proof. vm_compute. auto 10. Qed.

(** ** What the question event carries *)

Lemma LeakExample_created :
  start_live LeakExample.quiz Scenario.host
    [LeakExample.ordering_question; LeakExample.matching_question]
  = Some LeakExample.created.
Proof. reflexivity. Qed.

(** C7. A quiz holds an ordering and a matching question as the generator
    tool writes them. When the host advances to each, the [question] event
    has the fields index, total, question_text, question_type, options,
    marks, difficulty and time_limit, and no [correct_answer] field; but its
    [options] hold [correct_order], respectively [pairs], whose JSON text is
    the canonical answer of the active question, so the message sent to
    every student contains that answer, and a student who sends it back is
    scored correct. *)
Theorem question_event_reveals_answer genId :
  let env := Constraints.checked genId in
  let w1 := step env (run env [Join Scenario.S1] LeakExample.w0) (Next Scenario.host 1000) in
  let w2 := step env w1 (Next Scenario.host 2000) in
  match sse w1, sse w2 with
  | [_; e1], [_; _; e2] =>
      event e1 = "question" /\ event e2 = "question"
      /\ json_keys (data e1)
         = ["index"; "total"; "question_text"; "question_type"; "options"; "marks";
            "difficulty"; "time_limit"]
      /\ json_keys (data e2) = json_keys (data e1)
      /\ at_path ["correct_answer"] (data e1) = None
      /\ at_path ["correct_answer"] (data e2) = None
      /\ correct_answer LeakExample.ordering_question = "[0,1,2,3]"
      /\ option_map Json.stringify (at_path ["options"; "correct_order"] (data e1))
         = Some (correct_answer LeakExample.ordering_question)
      /\ option_map Json.stringify (at_path ["options"; "pairs"] (data e2))
         = Some (correct_answer LeakExample.matching_question)
      /\ JsString.includes (sse_message e1) (correct_answer LeakExample.ordering_question)
         = true
      /\ JsString.includes (sse_message e2) (correct_answer LeakExample.matching_question)
         = true
      /\ fst (submit_answer Scenario.S1 (answering (JStr "[0,1,2,3]")) 1500 w1)
         = Json 200 (JObj [("correct", JBool true); ("score", JNum 2)])
  | _, _ => False
  end.
Proof. vm_compute. auto 14. Qed.

(** ** What holds of the host routes in general *)

(** The next route refuses every caller who is not the recorded host, and
    changes nothing. *)
Lemma next_refuses_other_caller env u now w :
  teacherId (session w) <> jwt_userId u ->
  exists msg, next env u now w = (Json 403 (error_body msg), w).
Proof.
  intros Hne. unfold next.
  destruct (negb (roleMiddleware _ u)); [eauto|].
  destruct (String.eqb (teacherId (session w)) (jwt_userId u)) eqn:E.
  - apply String.eqb_eq in E. contradiction.
  - simpl. eauto.
Qed.

(** The end route ends the session for any caller with the teacher or admin
    role, and touches neither the participants nor the tables. *)
Lemma end_session_by_role u w :
  roleMiddleware ["teacher"; "admin"] u = true ->
  let w' := snd (end_session u w) in
  status (session w') = ended
  /\ participants (session w') = participants (session w)
  /\ currentQuestionIndex (session w') = currentQuestionIndex (session w)
  /\ db w' = db w.
Proof.
  intros Hrole. unfold end_session. rewrite Hrole. simpl. auto.
Qed.

(** Joining and answering never change the status, and the end route only
    moves it to [ended]: a step that takes the status back is a next call of
    the host on a session that still has a question after the current
    index. *)
Lemma backward_step_is_next env w r :
  stage (status (session (step env w r))) < stage (status (session w)) ->
  exists u now,
    r = Next u now
    /\ teacherId (session w) = jwt_userId u
    /\ status (session (step env w r)) = question
    /\ currentQuestionIndex (session w) + 1 < Z.of_nat (List.length (questions (session w))).
Proof.
  unfold step. destruct r as [u|u now|u ans now|u]; simpl.
  - unfold join. destruct (Status_eqb _ _); simpl; [lia|].
    destruct (negb _); simpl; lia.
  - unfold next. destruct (negb (roleMiddleware _ u)); simpl; [lia|].
    destruct (String.eqb _ _) eqn:Hhost; simpl; [|lia].
    apply String.eqb_eq in Hhost.
    destruct (_ <=? _) eqn:Hlast.
    + destruct (save_attempts _ _ _ _ _ _) as [[? ?] ?]. simpl.
      destruct (status (session w)); simpl; lia.
    + apply Z.leb_gt in Hlast. intros Hback.
      exists u, now. repeat split; auto.
      destruct (question_at _ _); reflexivity.
  - unfold submit_answer. destruct (negb _); simpl; [lia|].
    destruct (JsMap.get _ _); simpl; [|lia].
    destruct (answered _ _); simpl; [lia|].
    destruct (answer_of _) as [a0|]; simpl; [|lia].
    destruct (question_at _ _); simpl; [|lia].
    destruct (Live.isCorrect _ _); simpl; lia.
  - unfold end_session. destruct (negb _); simpl; [lia|].
    destruct (status (session w)); simpl; lia.
Qed.

(** The question event is built from the columns other than
    [correct_answer]: two questions that differ in that column only give the
    same event. *)
Lemma question_payload_ignores_answer s q a :
  question_payload s
    (mkQuestion (qid q) (question_text q) (question_type q) (options q) a
       (marks q) (difficulty q))
  = question_payload s q
  /\ json_keys (question_payload s q)
     = ["index"; "total"; "question_text"; "question_type"; "options"; "marks";
        "difficulty"; "time_limit"].
Proof. split; reflexivity. Qed.

(** * Further properties of the live routes *)

Section LiveRuns.

Variable env : Env.

Lemma step_same_quiz w r : same_quiz (session w) (session (step env w r)).
Proof.
  unfold step, same_quiz. destruct r as [u|u now|u ans now|u]; simpl.
  - unfold join. destruct (Status_eqb _ _); simpl; auto.
    destruct (negb _); simpl; auto.
  - unfold next. destruct (negb _); simpl; auto.
    destruct (negb _); simpl; auto.
    destruct (_ <=? _); simpl.
    + destruct (save_attempts _ _ _ _ _ _) as [[? ?] ?]; simpl; auto.
    + destruct (question_at _ _); simpl; auto.
  - unfold submit_answer. destruct (negb _); simpl; auto.
    destruct (JsMap.get _ _); simpl; auto.
    destruct (answered _ _); simpl; auto.
    destruct (answer_of _) as [a0|]; simpl; auto.
    destruct (question_at _ _); simpl; auto.
    destruct (Live.isCorrect _ _); simpl; auto.
  - unfold end_session. destruct (negb _); simpl; auto.
Qed.

(** X2. Whatever calls a live session receives, its quiz id, its host, its
    question snapshots and its time limit per question stay those of its
    creation. *)
Theorem run_keeps_quiz (rs : list Request) (w : World) :
  quizId (session (run env rs w)) = quizId (session w)
  /\ teacherId (session (run env rs w)) = teacherId (session w)
  /\ questions (session (run env rs w)) = questions (session w)
  /\ questionTimeLimit (session (run env rs w)) = questionTimeLimit (session w).
Proof.
  revert w. induction rs as [|r rs IH]; intros w; simpl; auto.
  destruct (IH (step env w r)) as (H1 & H2 & H3 & H4).
  destruct (step_same_quiz w r) as (G1 & G2 & G3 & G4).
  repeat split; congruence.
Qed.




Lemma index_ok_start quiz host qs s :
  start_live quiz host qs = Some s -> index_ok s.
Proof.
  unfold start_live. destruct (negb _); try discriminate.
  destruct qs; try discriminate. intros [= <-]. split; simpl; [lia|discriminate].
Qed.

Lemma step_index_ok w r : index_ok (session w) -> index_ok (session (step env w r)).
Proof.
  intros [Hlow Hq]. unfold step, index_ok.
  destruct r as [u|u now|u ans now|u]; simpl.
  - unfold join. destruct (Status_eqb _ _); simpl; auto.
    destruct (negb _); simpl; auto.
  - unfold next. destruct (negb _); simpl; auto.
    destruct (negb _); simpl; auto.
    destruct (_ <=? _) eqn:E; simpl.
    + destruct (save_attempts _ _ _ _ _ _) as [[? ?] ?]; simpl. split; [lia|discriminate].
    + apply Z.leb_gt in E. destruct (question_at _ _); simpl; split; lia.
  - unfold submit_answer. destruct (negb _); simpl; auto.
    destruct (JsMap.get _ _); simpl; auto.
    destruct (answered _ _); simpl; auto.
    destruct (answer_of _) as [a0|]; simpl; auto.
    destruct (question_at _ _); simpl; auto.
    destruct (Live.isCorrect _ _); simpl; auto.
  - unfold end_session. destruct (negb _); simpl; auto.
    split; [lia|discriminate].
Qed.

Lemma reachable_index_ok w : reachable env w -> index_ok (session w).
Proof.
  induction 1; eauto using index_ok_start, step_index_ok.
Qed.

Lemma question_at_in_range qs i :
  0 <= i < Z.of_nat (List.length qs) -> exists q, question_at qs i = Some q.
Proof.
  intros Hi. unfold question_at.
  destruct (i <? 0) eqn:E; [apply Z.ltb_lt in E; lia|].
  destruct (nth_error qs (Z.to_nat i)) eqn:En; eauto.
  apply nth_error_None in En. lia.
Qed.



(** The next route ends in an exception only in the finalization. *)
Lemma next_throws_finalizing w u now :
  index_ok (session w) -> fst (next env u now w) = ServerError -> finalizing u w.
Proof.
  intros [Hlow Hq]. unfold next, finalizing.
  destruct (roleMiddleware _ u); simpl; try discriminate.
  destruct (String.eqb _ _) eqn:Hhost; simpl; try discriminate.
  apply String.eqb_eq in Hhost.
  destruct (_ <=? _) eqn:E; simpl.
  - apply Z.leb_le in E. auto.
  - apply Z.leb_gt in E.
    destruct (question_at_in_range (questions (session w))
                (currentQuestionIndex (session w) + 1)) as [q Hsome]; [lia|].
    simpl. rewrite Hsome. simpl. discriminate.
Qed.


Lemma submit_answer_throws u body now w :
  index_ok (session w) ->
  fst (submit_answer u body now w) = ServerError ->
  snd (submit_answer u body now w) = w
  /\ (answer_of body = None
      \/ exists ans, answer_of body = Some ans /\ optional_trim_lower ans = None).
Proof.
  intros [Hlow Hq]. unfold submit_answer.
  destruct (Status_eqb (status (session w)) question) eqn:Hst; simpl; try discriminate.
  destruct (JsMap.get _ _); simpl; try discriminate.
  destruct (answered _ _); simpl; try discriminate.
  assert (Hstq : status (session w) = question)
    by (destruct (status (session w)); simpl in Hst; congruence).
  destruct (question_at_in_range _ _ (Hq Hstq)) as [q Hsome]. rewrite Hsome.
  destruct (answer_of body) as [ans|]; simpl; auto.
  unfold Live.isCorrect.
  destruct (optional_trim_lower ans) eqn:E; simpl; try discriminate. eauto.
Qed.


(** X4. On a reachable session a call that is refused, with a reply of a
    status other than 200, changes nothing: the session, the tables, the
    event log and the count of identifiers are as before. A call that ends
    in an exception changes nothing either, unless it is the host's next
    call that ends the session: there the database has rejected an insert
    after the session was ended, the index moved and [quiz_ended] broadcast,
    and these changes stay. *)
Theorem refused_call_changes_nothing (w : World) (r : Request) :
  reachable env w ->
  (forall code body,
     fst (handle env r w) = Json code body -> code <> 200 -> step env w r = w)
  /\ (fst (handle env r w) = ServerError ->
      step env w r = w
      \/ exists u now,
           r = Next u now /\ finalizing u w
           /\ status (session (step env w r)) = ended
           /\ currentQuestionIndex (session (step env w r))
              = currentQuestionIndex (session w) + 1
           /\ sse (step env w r) = quiz_ended (session (step env w r)) (sse w)).
Proof.
  intros Hreach.
  pose proof (reachable_index_ok w Hreach) as Hidx.
  split.
  - intros code body Heq Hc. revert Heq.
    unfold step. destruct r as [u|u now|u b now|u]; simpl.
    + unfold join. destruct (Status_eqb _ _); simpl; auto.
      intros [= H _]. congruence.
    + unfold next.
      destruct (negb _); simpl; auto.
      destruct (negb _); simpl; auto.
      destruct (_ <=? _); simpl.
      * destruct (save_attempts _ _ _ _ _ _) as [[? ?] [|]]; simpl;
          [intros [= H _]; congruence | discriminate].
      * destruct (question_at _ _); simpl; [intros [= H _]; congruence | discriminate].
    + unfold submit_answer. destruct (negb _); simpl; auto.
      destruct (JsMap.get _ _); simpl; auto.
      destruct (answered _ _); simpl; auto.
      destruct (answer_of _) as [a0|]; simpl; auto.
      destruct (question_at _ _); simpl; auto.
      destruct (Live.isCorrect _ _); simpl; auto.
      intros [= H _]. congruence.
    + unfold end_session. destruct (negb _); simpl; auto.
      intros [= H _]. congruence.
  - unfold step. destruct r as [u|u now|u b now|u]; simpl.
    + unfold join. destruct (Status_eqb _ _); simpl; try discriminate.
    + intros Hthrow. right. exists u, now.
      pose proof (next_throws_finalizing w u now Hidx Hthrow) as Hfin.
      destruct (next_finalizes env u now w Hfin) as (H1 & H2 & _ & _ & H5 & _).
      auto.
    + intros Hthrow. left. now apply submit_answer_throws.
    + unfold end_session. destruct (negb _); simpl; discriminate.
Qed.

End LiveRuns.

(** ** The participant map along a run *)

Lemma JsMap_get_None_keys {V} k (m : list (string * V)) :
  JsMap.get k m = None -> ~ In k (map fst m).
Proof.
  induction m as [|[k' v] m IH]; simpl; auto.
  destruct (String.eqb k k') eqn:E; try discriminate.
  apply String.eqb_neq in E. intros H [Hk|Hin]; [congruence|now apply IH].
Qed.

Lemma JsMap_get_In {V} k (v : V) m : JsMap.get k m = Some v -> In (k, v) m.
Proof.
  induction m as [|[k' v'] m IH]; simpl; try discriminate.
  destruct (String.eqb k k') eqn:E.
  - apply String.eqb_eq in E. intros [= ->]. left. now subst.
  - auto.
Qed.

Lemma JsMap_set_keys_present {V} k (v v' : V) m :
  JsMap.get k m = Some v -> map fst (JsMap.set k v' m) = map fst m.
Proof.
  induction m as [|[k0 v0] m IH]; simpl; try discriminate.
  destruct (String.eqb k k0); simpl; auto.
  intros H. now rewrite IH.
Qed.

Lemma JsMap_In_set {V} k (v : V) m x :
  In x (JsMap.set k v m) -> In x m \/ x = (k, v).
Proof.
  induction m as [|[k' v'] m IH]; simpl.
  - intros [<-|[]]. now right.
  - destruct (String.eqb k k') eqn:E; simpl.
    + apply String.eqb_eq in E. subst k'. intros [<-|H]; auto.
    + intros [<-|H]; auto. destruct (IH H); auto.
Qed.

Lemma keyed_ok_start quiz host qs s :
  start_live quiz host qs = Some s -> keyed_ok s.
Proof.
  unfold start_live. destruct (negb _); try discriminate.
  destruct qs; try discriminate. intros [= <-]. split; simpl; [constructor|tauto].
Qed.

Lemma join_keyed_ok u w :
  keyed_ok (session w) -> keyed_ok (session (snd (join u w))).
Proof.
  intros [Hnd Hid]. unfold join.
  destruct (Status_eqb _ _); simpl; [now split|].
  destruct (JsMap.has _ _) eqn:Hhas; simpl; [now split|].
  unfold JsMap.has in Hhas.
  destruct (JsMap.get (jwt_userId u) (participants (session w))) eqn:Hget;
    try discriminate.
  rewrite (JsMapFacts.set_absent _ _ _ Hget). split; simpl.
  - rewrite map_app. simpl.
    apply (Permutation_NoDup (Permutation_cons_append _ _)).
    constructor; auto using JsMap_get_None_keys.
  - intros k p Hin. apply in_app_or in Hin. destruct Hin as [Hin|[[= <- <-]|[]]]; auto.
Qed.

Lemma submit_answer_keyed_ok u ans now w :
  keyed_ok (session w) -> keyed_ok (session (snd (submit_answer u ans now w))).
Proof.
  intros [Hnd Hid]. unfold submit_answer.
  destruct (negb _); simpl; [now split|].
  destruct (JsMap.get _ _) as [p|] eqn:Hget; simpl; [|now split].
  destruct (answered _ _); simpl; [now split|].
  destruct (answer_of _) as [a0|]; simpl; [|now split].
  destruct (question_at _ _); simpl; [|now split].
  destruct (Live.isCorrect _ _); simpl; [|now split].
  split; simpl.
  - now rewrite (JsMap_set_keys_present _ _ _ _ Hget).
  - intros k p0 Hin. apply JsMap_In_set in Hin.
    destruct Hin as [Hin|[= -> ->]]; auto. simpl.
    apply (Hid _ _ (JsMap_get_In _ _ _ Hget)).
Qed.

Lemma ranked_length i l : List.length (ranked i l) = List.length l.
Proof. revert i. induction l; intros i; simpl; auto. Qed.

Lemma ranked_ranks i l :
  map (at_path ["rank"]) (ranked i l)
  = map (fun k => Some (JNum (i + 1 + Z.of_nat k))) (seq 0 (List.length l)).
Proof.
  revert i. induction l as [|p l IH]; intros i; simpl; auto.
  f_equal.
  - unfold at_path. simpl. do 2 f_equal. lia.
  - rewrite IH, <- seq_shift, map_map. apply map_ext. intros k. do 2 f_equal. lia.
Qed.

Section LiveMap.

Variable env : Env.

Lemma step_keyed_ok w r : keyed_ok (session w) -> keyed_ok (session (step env w r)).
Proof.
  intros Hok. unfold step. destruct r as [u|u now|u ans now|u]; simpl.
  - now apply join_keyed_ok.
  - unfold next. destruct (negb _); simpl; auto.
    destruct (negb _); simpl; auto.
    destruct (_ <=? _); simpl.
    + destruct (save_attempts _ _ _ _ _ _) as [[? ?] ?]; simpl; auto.
    + destruct (question_at _ _); simpl; auto.
  - now apply submit_answer_keyed_ok.
  - unfold end_session. destruct (negb _); simpl; auto.
Qed.

(** X5. On a reachable session every student is in the participant map at
    most once, each entry is stored under the id of its own participant, and
    the leaderboard has exactly one row per participant, with the ranks 1,
    2, ... in this order. *)
Theorem one_entry_per_student (w : World) :
  reachable env w ->
  NoDup (map fst (participants (session w)))
  /\ (forall k p, In (k, p) (participants (session w)) -> userId p = k)
  /\ ranks (leaderboard (session w))
     = map (fun k => Some (JNum (1 + Z.of_nat k)))
           (seq 0 (List.length (participants (session w)))).
Proof.
  intros Hreach.
  assert (Hok : keyed_ok (session w))
    by (induction Hreach; eauto using keyed_ok_start, step_keyed_ok).
  destruct Hok as [Hnd Hid]. repeat split; auto.
  unfold leaderboard, ranks. rewrite ranked_ranks.
  unfold ranking. rewrite (Permutation_length (sort_desc_perm _)).
  unfold JsMap.values. now rewrite length_map.
Qed.

Lemma step_exhausted w r :
  exhausted (session w) ->
  exhausted (session (step env w r))
  /\ participants (session (step env w r)) = participants (session w).
Proof.
  intros [Hst Hlen]. unfold step, exhausted.
  destruct r as [u|u now|u ans now|u]; simpl.
  - unfold join. rewrite Hst. simpl. auto.
  - unfold next. destruct (negb _); simpl; auto.
    destruct (negb _); simpl; auto.
    destruct (_ <=? _) eqn:E; simpl.
    + destruct (save_attempts _ _ _ _ _ _) as [[? ?] ?]; simpl. repeat split; auto. lia.
    + apply Z.leb_gt in E. lia.
  - unfold submit_answer. rewrite Hst. simpl. auto.
  - unfold end_session. destruct (negb _); simpl; auto.
Qed.

(** X6. A session that has run past its last question is closed for good:
    whatever calls follow, its status stays [ended] and its participants,
    with their scores and answer records, stay as they are. *)
Theorem exhausted_session_is_closed (rs : list Request) (w : World) :
  exhausted (session w) ->
  status (session (run env rs w)) = ended
  /\ participants (session (run env rs w)) = participants (session w).
Proof.
  revert w. induction rs as [|r rs IH]; intros w Hex; simpl.
  - split; auto. apply Hex.
  - destruct (step_exhausted w r Hex) as [Hex' Hps].
    destruct (IH _ Hex') as [H1 H2]. split; congruence.
Qed.

End LiveMap.

(** ** What the finalization stores *)


Section Finalization.

Variable env : Env.



End Finalization.

(** ** Scores and percentages *)

Lemma marks_by_position qs : map (marks_at qs) (seq 0 (List.length qs)) = map marks qs.
Proof.
  induction qs as [|q qs IH]; simpl; auto.
  f_equal. rewrite <- seq_shift, map_map. exact IH.
Qed.

Lemma total_marks_sum qs : total_marks qs = Zsum (map marks qs).
Proof.
  unfold total_marks.
  assert (H : forall acc, fold_left (fun a q => a + marks q) qs acc
                          = acc + Zsum (map marks qs)).
  { induction qs as [|q qs IH]; intros acc; simpl; [lia|]. rewrite IH. lia. }
  rewrite H. lia.
Qed.

Lemma earned_bounds s p :
  Forall (fun q => 0 <= marks q) (questions s) ->
  0 <= earned s p <= total_marks (questions s).
Proof.
  intros Hpos. rewrite total_marks_sum, <- marks_by_position. unfold earned.
  assert (Hm : forall i, 0 <= marks_at (questions s) i).
  { intros i. unfold marks_at. destruct (nth_error _ i) as [q|] eqn:E; [|lia].
    rewrite Forall_forall in Hpos. apply Hpos. eapply nth_error_In; eauto. }
  induction (seq 0 (List.length (questions s))) as [|i l IH]; simpl; [lia|].
  specialize (Hm i). destruct (answered_correctly _ _); lia.
Qed.

(** ** Numbers: rounding to binary64 stays between integers *)

Module JsNumberFacts.
Import JsNumber.

Lemma nearest_even_le N d M : 0 < d -> N <= M * d -> nearest_even N d <= M.
Proof.
  intros Hd H. unfold nearest_even.
  pose proof (Z.div_mod N d ltac:(lia)) as Hdm.
  pose proof (Z.mod_pos_bound N d Hd) as Hr.
  assert (Hq : N / d <= M) by (apply Z.div_le_upper_bound; lia).
  assert (Hq1 : 0 < N mod d -> N / d + 1 <= M) by (intros; nia).
  destruct (2 * (N mod d) ?= d) eqn:E.
  - apply Z.compare_eq in E. destruct (Z.even _); [lia|]. apply Hq1. lia.
  - lia.
  - apply Z.compare_gt_iff in E. apply Hq1. lia.
Qed.

Lemma nearest_even_ge N d M : 0 < d -> M * d <= N -> M <= nearest_even N d.
Proof.
  intros Hd H. unfold nearest_even.
  assert (Hq : M <= N / d) by (apply Z.div_le_lower_bound; lia).
  destruct (2 * (N mod d) ?= d); [destruct (Z.even _)|..]; lia.
Qed.

Lemma nearest_even_exact z d : 0 < d -> nearest_even (z * d) d = z.
Proof.
  intros Hd. apply Z.le_antisymm.
  - apply nearest_even_le; lia.
  - apply nearest_even_ge; lia.
Qed.

Lemma flog2_le n d : 0 < n -> 0 < d -> n < 2 ^ 53 * d -> flog2 n d <= 52.
Proof.
  intros Hn Hd H. unfold flog2.
  pose proof (Z.log2_nonneg d) as Hld.
  assert (Hd2 : d < 2 ^ (Z.log2 d + 1)).
  { replace (Z.log2 d + 1) with (Z.succ (Z.log2 d)) by lia. now apply Z.log2_spec. }
  assert (Hl : Z.log2 n < 54 + Z.log2 d).
  { apply Z.log2_lt_pow2; auto.
    replace (54 + Z.log2 d) with (53 + (Z.log2 d + 1)) by lia.
    rewrite Z.pow_add_r by lia. nia. }
  set (l := Z.log2 n - Z.log2 d).
  destruct (Z.eq_dec l 53) as [E|E].
  - rewrite E. cbn [Z.leb Z.compare].
    destruct (d * 2 ^ 53 <=? n) eqn:T; [apply Z.leb_le in T; lia|lia].
  - destruct (if 0 <=? l then _ else _); lia.
Qed.

Lemma round_pos_bounds n d (B : Z) :
  0 < d -> 0 <= n -> n <= B * d ->
  (0 <= round_pos n d)%Q /\ (round_pos n d <= inject_Z B)%Q.
Proof.
  intros Hd Hn Hhi. unfold round_pos.
  set (k := 52 - flog2 n d).
  assert (HB : 0 <= B) by (destruct (Z.le_gt_cases 0 B); [assumption|nia]).
  destruct (Z.le_gt_cases 0 k) as [Hk|Hk].
  - assert (Hp : 0 < 2 ^ k) by (apply Z.pow_pos_nonneg; lia).
    unfold Qle. cbn [Qnum Qden inject_Z]. rewrite Z2Pos.id by lia.
    split.
    + rewrite Z.mul_1_r. change (0 * Z.pos _) with 0.
      apply nearest_even_ge; nia.
    + rewrite Z.mul_1_r. apply nearest_even_le; nia.
  - rewrite (Z.pow_neg_r 2 k) by lia. rewrite Z.mul_0_r.
    pose proof (nearest_even_exact 0 d Hd) as Hz. cbn [Z.mul] in Hz. rewrite Hz.
    unfold Qle. cbn. lia.
Qed.

Lemma double_bounds x (B : Z) :
  (0 <= x)%Q -> (x <= inject_Z B)%Q ->
  (0 <= double x)%Q /\ (double x <= inject_Z B)%Q.
Proof.
  intros H0 HB. unfold double.
  destruct (2 ^ 53 * Z.pos (Qden x) <=? Z.abs (Qnum x)); [auto|].
  assert (Hn : 0 <= Qnum x) by (unfold Qle in H0; cbn in H0; lia).
  assert (Hhi : Qnum x <= B * Z.pos (Qden x))
    by (unfold Qle in HB; cbn in HB; lia).
  destruct (0 <? Qnum x) eqn:E.
  - apply round_pos_bounds; lia.
  - apply Z.ltb_ge in E.
    destruct (Qnum x <? 0) eqn:E'; [apply Z.ltb_lt in E'; lia|].
    split; [apply Qle_refl|]. unfold Qle. cbn. nia.
Qed.

Lemma round_pos_exact z d :
  0 < d -> 0 < z -> z * d < 2 ^ 53 * d -> (round_pos (z * d) d == inject_Z z)%Q.
Proof.
  intros Hd Hz H. unfold round_pos.
  pose proof (flog2_le (z * d) d ltac:(nia) Hd H) as Hk.
  set (k := 52 - flog2 (z * d) d) in *.
  assert (Hp : 0 < 2 ^ k) by (apply Z.pow_pos_nonneg; lia).
  replace (z * d * 2 ^ k) with (z * 2 ^ k * d) by lia.
  rewrite nearest_even_exact by lia.
  unfold Qeq. cbn [Qnum Qden inject_Z]. rewrite Z2Pos.id by lia. lia.
Qed.

(** An integer below [2 ^ 53] is a binary64 number. *)
Lemma double_integer x (z : Z) : (x == inject_Z z)%Q -> (double x == inject_Z z)%Q.
Proof.
  intros Hx. unfold double.
  destruct (2 ^ 53 * Z.pos (Qden x) <=? Z.abs (Qnum x)) eqn:G; [exact Hx|].
  apply Z.leb_gt in G.
  assert (Hn : Qnum x = z * Z.pos (Qden x))
    by (unfold Qeq in Hx; cbn in Hx; lia).
  destruct (0 <? Qnum x) eqn:E.
  - apply Z.ltb_lt in E. rewrite Hn. apply round_pos_exact; try lia; nia.
  - apply Z.ltb_ge in E. destruct (Qnum x <? 0) eqn:E'.
    + apply Z.ltb_lt in E'.
      replace (- Qnum x) with (- z * Z.pos (Qden x)) by lia.
      rewrite round_pos_exact; try lia; try nia.
      unfold Qeq. cbn. lia.
    + apply Z.ltb_ge in E'. unfold Qeq. cbn. nia.
Qed.

Lemma Math_round_bounds x (a b : Z) :
  (inject_Z a <= x)%Q -> (x <= inject_Z b)%Q -> a <= Math_round x <= b.
Proof.
  intros Ha Hb. unfold Math_round.
  assert (Hz : forall z, Qfloor (inject_Z z + (1 # 2)) = z).
  { intros z. unfold Qfloor, Qplus. cbn [Qnum Qden inject_Z].
    replace (z * 2 + 1 * 1) with (1 + z * 2) by lia.
    rewrite Z.div_add by lia. reflexivity. }
  split.
  - apply Z.le_trans with (Qfloor (inject_Z a + (1 # 2))); [rewrite Hz; lia|].
    apply Qfloor_resp_le. now apply Qplus_le_l.
  - apply Z.le_trans with (Qfloor (inject_Z b + (1 # 2))); [|rewrite Hz; lia].
    apply Qfloor_resp_le. now apply Qplus_le_l.
Qed.

Lemma Math_round_integer x (z : Z) : (x == inject_Z z)%Q -> Math_round x = z.
Proof.
  intros H. assert (z <= Math_round x <= z); [|lia].
  apply Math_round_bounds; rewrite H; apply Qle_refl.
Qed.

End JsNumberFacts.

Lemma ratio_bounds k n :
  0 <= k <= n -> 0 < n ->
  (0 <= JsNumber.div (inject_Z k) (inject_Z n))%Q
  /\ (JsNumber.div (inject_Z k) (inject_Z n) <= inject_Z 1)%Q.
Proof.
  intros Hk Hn. apply JsNumberFacts.double_bounds.
  - apply Qle_shift_div_l; [now rewrite <- (Zlt_Qlt 0)|].
    rewrite Qmult_0_l. rewrite <- (Zle_Qle 0). lia.
  - apply Qle_shift_div_r; [now rewrite <- (Zlt_Qlt 0)|].
    change (inject_Z 1) with 1%Q. rewrite Qmult_1_l, <- Zle_Qle. lia.
Qed.

(** A product with a ratio between 0 and 1 stays within the other factor. *)
Lemma mul_ratio_bounds (m : Z) (a r : Q) :
  0 <= m -> (0 <= a)%Q -> (a <= inject_Z m)%Q -> (0 <= r)%Q -> (r <= inject_Z 1)%Q ->
  (0 <= JsNumber.mul a r)%Q /\ (JsNumber.mul a r <= inject_Z m)%Q.
Proof.
  intros Hm Ha0 Ha H0 H1. apply JsNumberFacts.double_bounds.
  - now apply Qmult_le_0_compat.
  - apply Qle_trans with (a * 1)%Q.
    + rewrite (Qmult_comm a r), (Qmult_comm a 1). now apply Qmult_le_compat_r.
    + now rewrite Qmult_1_r.
Qed.

Lemma round_ratio_bounds m k n :
  0 <= m -> 0 <= k <= n -> 0 < n -> 0 <= round_ratio m k n <= m.
Proof.
  intros Hm Hk Hn. unfold round_ratio.
  destruct (ratio_bounds k n Hk Hn) as [H0 H1].
  apply JsNumberFacts.Math_round_bounds;
    apply (mul_ratio_bounds m); auto; try apply Qle_refl; now rewrite <- (Zle_Qle 0).
Qed.

Lemma round_ratio_all m n : 0 < n -> round_ratio m n n = m.
Proof.
  intros Hn. unfold round_ratio, JsNumber.mul, JsNumber.div.
  apply JsNumberFacts.Math_round_integer, JsNumberFacts.double_integer.
  rewrite (JsNumberFacts.double_integer _ 1).
  - apply Qmult_1_r.
  - apply Qmult_inv_r. unfold Qeq. cbn. lia.
Qed.

Lemma round_ratio_none m n : round_ratio m 0 n = 0.
Proof.
  unfold round_ratio, JsNumber.mul, JsNumber.div.
  apply JsNumberFacts.Math_round_integer, JsNumberFacts.double_integer.
  rewrite (JsNumberFacts.double_integer _ 0).
  - apply Qmult_0_r.
  - unfold Qdiv. apply Qmult_0_l.
Qed.

Lemma percentage_bounds sc t :
  0 <= sc <= t -> (0 <= percentage sc t)%Q /\ (percentage sc t <= 100)%Q.
Proof.
  intros Hsc. unfold percentage.
  destruct (0 <? t) eqn:E.
  - apply Z.ltb_lt in E.
    destruct (ratio_bounds sc t Hsc E) as [H0 H1].
    assert (H2 : (0 <= JsNumber.mul (JsNumber.div (inject_Z sc) (inject_Z t)) 100)%Q
                 /\ (JsNumber.mul (JsNumber.div (inject_Z sc) (inject_Z t)) 100
                     <= inject_Z 100)%Q).
    { apply JsNumberFacts.double_bounds.
      - apply Qmult_le_0_compat; auto. unfold Qle; cbn; lia.
      - apply Qle_trans with (inject_Z 1 * 100)%Q.
        + apply Qmult_le_compat_r; auto. unfold Qle; cbn; lia.
        + apply Qle_refl. }
    destruct H2 as [H2 H3].
    assert (H4 : (0 <= JsNumber.mul
                         (JsNumber.mul (JsNumber.div (inject_Z sc) (inject_Z t)) 100) 100)%Q
                 /\ (JsNumber.mul
                       (JsNumber.mul (JsNumber.div (inject_Z sc) (inject_Z t)) 100) 100
                     <= inject_Z 10000)%Q).
    { apply JsNumberFacts.double_bounds.
      - apply Qmult_le_0_compat; auto. unfold Qle; cbn; lia.
      - apply Qle_trans with (inject_Z 100 * 100)%Q.
        + apply Qmult_le_compat_r; auto. unfold Qle; cbn; lia.
        + apply Qle_refl. }
    destruct H4 as [H4 H5].
    pose proof (JsNumberFacts.Math_round_bounds _ 0 10000 H4 H5) as Hr.
    unfold Qle. cbn [Qnum Qden]. lia.
  - unfold Qle. cbn. lia.
Qed.

Section ScoreBounds.

Variable env : Env.

(** X8. On a reachable session whose questions all have marks of zero or
    more, every participant's score lies between 0 and the total marks of
    the quiz, and the percentage the finalization computes from the two lies
    between 0 and 100. *)
Theorem score_within_total (w : World) :
  reachable env w ->
  Forall (fun q => 0 <= marks q) (questions (session w)) ->
  forall k p,
    In (k, p) (participants (session w)) ->
    0 <= score p <= total_marks (questions (session w))
    /\ (0 <= percentage (score p) (total_marks (questions (session w))))%Q
    /\ (percentage (score p) (total_marks (questions (session w))) <= 100)%Q.
Proof.
  intros Hreach Hpos k p Hin.
  assert (Hs : score p = earned (session w) p)
    by (apply participant_ok_earned; apply (reachable_ok env w Hreach k p Hin)).
  pose proof (earned_bounds (session w) p Hpos) as Hb. rewrite <- Hs in Hb.
  split; auto. now apply percentage_bounds.
Qed.

End ScoreBounds.

(** * Further properties of the scoring switch *)

Lemma ceil_half_bounds m : 0 <= m -> 0 <= ceil_half m <= m.
Proof.
  intros Hm. unfold ceil_half. split.
  - apply Z.div_pos; lia.
  - assert ((m + 1) / 2 < m + 1); [|lia]. apply Z.div_lt_upper_bound; lia.
Qed.

Lemma count_matches_bounds sp cps k :
  count_matches sp cps = Some k -> 0 <= k <= Z.of_nat (List.length cps).
Proof.
  revert k. induction cps as [|cp cps IH]; simpl; intros k.
  - intros [= <-]. lia.
  - destruct sp; try discriminate.
    destruct (find_pair cp items) as [m|]; try discriminate.
    destruct (count_matches (JArr items) cps) as [n|]; try discriminate.
    specialize (IH n eq_refl). intros [= <-].
    destruct m as [v|]; [destruct (Json.truthy v)|]; lia.
Qed.

Section Switch.

Variable JSON_parse : string -> option json.

Lemma plain_trim_lower_None (a : option json) :
  plain_trim_lower a = None <-> forall s, a <> Some (JStr s).
Proof.
  split.
  - intros H s ->. discriminate H.
  - intros H. destruct a as [[| | |s| |]|]; try reflexivity. now destruct (H s).
Qed.

(** X9. The scoring switch of the submit route lets an exception out exactly
    when the question is not of type matching or ordering and either the
    [answer] field of the entry is not a string (it is absent, null, a
    number, ...), or the question is of type fill_in_blank and its
    [acceptable] option is a truthy value that is not an array of strings.
    A matching or ordering question never throws: an answer, or a canonical
    answer, whose text is not JSON is scored incorrect with no marks. *)
Theorem switch_throws_only_for_acceptable (q : Question) (a : option json) :
  (score_async JSON_parse q a = Uncaught <->
   question_type q <> "matching" /\ question_type q <> "ordering"
   /\ ((forall s, a <> Some (JStr s))
       \/ (question_type q = "fill_in_blank" /\ acceptable_of q = None)))
  /\ (question_type q = "matching" \/ question_type q = "ordering" ->
      JSON_parse (Json.to_string_opt a) = None \/ JSON_parse (correct_answer q) = None ->
      score_async JSON_parse q a = Scored false 0).
Proof.
  rewrite <- plain_trim_lower_None. unfold score_async. split.
  - destruct (String.eqb (question_type q) "mcq" || String.eqb (question_type q) "true_false")
      eqn:E1.
    { assert (Hty : question_type q = "mcq" \/ question_type q = "true_false")
        by (apply orb_true_iff in E1; rewrite <- !String.eqb_eq; exact E1).
      assert (Hne : question_type q <> "matching" /\ question_type q <> "ordering"
                    /\ question_type q <> "fill_in_blank")
        by (destruct Hty as [-> | ->]; repeat split; discriminate).
      destruct (plain_trim_lower a) eqn:Ea.
      - split; [discriminate|]. intros (_ & _ & [H|[H _]]); [discriminate H|tauto].
      - split; [tauto|reflexivity]. }
    destruct (String.eqb (question_type q) "fill_in_blank") eqn:E2.
    { apply String.eqb_eq in E2.
      assert (Hne : question_type q <> "matching" /\ question_type q <> "ordering")
        by (rewrite E2; split; discriminate).
      destruct (acceptable_of q) eqn:Eacc.
      - destruct (plain_trim_lower a) eqn:Ea.
        + split; [discriminate|]. intros (_ & _ & [H|[_ H]]); discriminate H.
        + split; [tauto|reflexivity].
      - split; [tauto|reflexivity]. }
    apply String.eqb_neq in E2.
    destruct (String.eqb (question_type q) "matching") eqn:E3.
    { apply String.eqb_eq in E3.
      destruct (matching_try _ _ _) as [[c m]|]; (split; [discriminate|tauto]). }
    apply String.eqb_neq in E3.
    destruct (String.eqb (question_type q) "ordering") eqn:E4.
    { apply String.eqb_eq in E4.
      destruct (ordering_try _ _ _) as [[c m]|]; (split; [discriminate|tauto]). }
    apply String.eqb_neq in E4.
    destruct (plain_trim_lower a) eqn:Ea.
    + split.
      * destruct (String.eqb s (trim_lower (correct_answer q))); [discriminate|].
        destruct (shares_long_word _ _); discriminate.
      * intros (_ & _ & [H|[H _]]); [discriminate H|contradiction].
    + split; [tauto|reflexivity].
  - intros [Hty|Hty] Hbad; rewrite Hty; simpl.
    + unfold matching_try.
      destruct Hbad as [-> | ->]; [reflexivity|].
      destruct (JSON_parse _); reflexivity.
    + unfold ordering_try.
      destruct Hbad as [-> | ->]; [reflexivity|].
      destruct (JSON_parse _); reflexivity.
Qed.

Lemma score_async_bounds (q : Question) (a : option json) (c : bool) (m : Z) :
  0 <= marks q ->
  score_async JSON_parse q a = Scored c m ->
  0 <= m <= marks q.
Proof.
  intros Hpos. unfold score_async.
  destruct (_ || _).
  { destruct (plain_trim_lower a); try discriminate.
    intros [= _ <-]. destruct (String.eqb _ _); lia. }
  destruct (String.eqb (question_type q) "fill_in_blank").
  { destruct (acceptable_of q); try discriminate.
    destruct (plain_trim_lower a); try discriminate.
    intros [= _ <-]. destruct (existsb _ _); lia. }
  destruct (String.eqb (question_type q) "matching").
  { unfold matching_try.
    destruct (JSON_parse (Json.to_string_opt a)) as [sp|]; [|intros [= _ <-]; lia].
    destruct (JSON_parse (correct_answer q)) as [cp|]; [|intros [= _ <-]; lia].
    destruct (iterate cp) as [cps|]; [|intros [= _ <-]; lia].
    destruct (count_matches sp cps) as [k|] eqn:Ek; [|intros [= _ <-]; lia].
    pose proof (count_matches_bounds _ _ _ Ek) as Hk.
    destruct (0 <? Z.of_nat (List.length cps)) eqn:El; intros [= _ <-].
    - apply Z.ltb_lt in El. apply round_ratio_bounds; lia.
    - apply round_ratio_bounds; lia. }
  destruct (String.eqb (question_type q) "ordering").
  { unfold ordering_try.
    destruct (JSON_parse (Json.to_string_opt a)) as [sp|]; [|intros [= _ <-]; lia].
    destruct (JSON_parse (correct_answer q)) as [cp|]; [|intros [= _ <-]; lia].
    intros [= _ <-]. destruct (match sp with JArr _ => _ | _ => _ end); lia. }
  destruct (plain_trim_lower a) as [s|]; try discriminate.
  destruct (String.eqb s (trim_lower (correct_answer q))); [intros [= _ <-]; lia|].
  destruct (shares_long_word _ _); intros [= _ <-]; [apply ceil_half_bounds|]; lia.
Qed.

(** X10. For a question with marks of zero or more, the marks the scoring
    switch awards lie between 0 and the marks of the question, for every
    question type, answer and parser result, partial credit included. *)
Theorem awarded_within_marks (q : Question) (a : option json) (c : bool) (m : Z) :
  0 <= marks q ->
  score_async JSON_parse q a = Scored c m ->
  0 <= m <= marks q.
Proof. apply score_async_bounds. Qed.

(** X11. A verdict of correct comes with the full marks of the question,
    with one exception: a matching question whose canonical answer parses
    to an empty list (or an empty string) marks every parseable submission
    correct and awards no marks. *)
Theorem correct_gets_full_marks (q : Question) (a : option json) (m : Z) :
  score_async JSON_parse q a = Scored true m ->
  m = marks q
  \/ (question_type q = "matching" /\ m = 0
      /\ exists cp, JSON_parse (correct_answer q) = Some cp /\ iterate cp = Some []).
Proof.
  unfold score_async.
  destruct (_ || _).
  { destruct (plain_trim_lower a); try discriminate.
    destruct (String.eqb _ _); intros [= <-]; auto. }
  destruct (String.eqb (question_type q) "fill_in_blank").
  { destruct (acceptable_of q); try discriminate.
    destruct (plain_trim_lower a); try discriminate.
    destruct (existsb _ _); intros [= <-]; auto. }
  destruct (String.eqb (question_type q) "matching") eqn:Ety.
  { apply String.eqb_eq in Ety. unfold matching_try.
    destruct (JSON_parse (Json.to_string_opt a)) as [sp|]; try discriminate.
    destruct (JSON_parse (correct_answer q)) as [cp|]; try discriminate.
    destruct (iterate cp) as [cps|] eqn:Eit; try discriminate.
    destruct (count_matches sp cps) as [k|] eqn:Ek; try discriminate.
    destruct (0 <? Z.of_nat (List.length cps)) eqn:El;
      (destruct (k =? Z.of_nat (List.length cps)) eqn:Eall; [|discriminate]);
      apply Z.eqb_eq in Eall; subst k; intros [= <-].
    - apply Z.ltb_lt in El. left. now apply round_ratio_all.
    - apply Z.ltb_ge in El. right. split; [exact Ety|].
      split; [apply round_ratio_none|].
      exists cp. split; auto. rewrite Eit.
      destruct cps as [|c0 cps']; [reflexivity|].
      change (List.length (c0 :: cps')) with (S (List.length cps')) in El. lia. }
  destruct (String.eqb (question_type q) "ordering").
  { unfold ordering_try.
    destruct (JSON_parse (Json.to_string_opt a)) as [sp|]; try discriminate.
    destruct (JSON_parse (correct_answer q)) as [cp|]; try discriminate.
    destruct (match sp with JArr _ => _ | _ => _ end); intros [= <-]; auto. }
  destruct (plain_trim_lower a) as [s|]; try discriminate.
  destruct (String.eqb s (trim_lower (correct_answer q))); [intros [= <-]; auto|].
  destruct (shares_long_word _ _); discriminate.
Qed.

End Switch.

(** ** Case and surrounding white space *)

Lemma trimStart_blank l s :
  forallb JsString.is_space l = true ->
  JsString.trimStart (l ++ s) = JsString.trimStart s.
Proof.
  induction l as [|c l IH]; simpl; auto.
  destruct (JsString.is_space c); simpl; [auto|discriminate].
Qed.

Lemma trimStart_nil_blank x :
  JsString.trimStart x = [] -> forallb JsString.is_space x = true.
Proof.
  induction x as [|c x IH]; simpl; auto.
  destruct (JsString.is_space c); simpl; [auto|discriminate].
Qed.

Lemma trimStart_solid x z c t :
  JsString.trimStart x = c :: t -> JsString.trimStart (x ++ z) = (c :: t ++ z)%list.
Proof.
  induction x as [|d x IH]; simpl; try discriminate.
  destruct (JsString.is_space d); [auto|]. intros [= -> <-]. reflexivity.
Qed.

Lemma forallb_rev {A} (f : A -> bool) l : forallb f l = true -> forallb f (rev l) = true.
Proof.
  rewrite !forallb_forall. intros H x Hx. apply H. now apply in_rev.
Qed.

Lemma trim_list_blank l x r :
  forallb JsString.is_space l = true ->
  forallb JsString.is_space r = true ->
  rev (JsString.trimStart (rev (JsString.trimStart (l ++ x ++ r))))
  = rev (JsString.trimStart (rev (JsString.trimStart x))).
Proof.
  intros Hl Hr. rewrite (trimStart_blank l) by exact Hl.
  destruct (JsString.trimStart x) as [|c t] eqn:E.
  - apply trimStart_nil_blank in E.
    assert (Hxr : forallb JsString.is_space (x ++ r) = true)
      by (rewrite forallb_app, E, Hr; reflexivity).
    rewrite <- (app_nil_r (x ++ r)), (trimStart_blank (x ++ r) []) by exact Hxr.
    reflexivity.
  - rewrite (trimStart_solid x r c t E).
    change (c :: t ++ r)%list with ((c :: t) ++ r)%list.
    rewrite rev_app_distr, (trimStart_blank (rev r)) by (now apply forallb_rev).
    reflexivity.
Qed.

Lemma list_ascii_of_string_app s t :
  list_ascii_of_string (s ++ t) = (list_ascii_of_string s ++ list_ascii_of_string t)%list.
Proof. induction s; simpl; congruence. Qed.

Lemma trim_blank l a r :
  is_blank l = true -> is_blank r = true -> JsString.trim (l ++ a ++ r) = JsString.trim a.
Proof.
  intros Hl Hr. unfold JsString.trim.
  rewrite !list_ascii_of_string_app. now rewrite trim_list_blank.
Qed.

Lemma is_space_lower c : JsString.is_space (JsString.lower_char c) = JsString.is_space c.
Proof. destruct c as [[] [] [] [] [] [] [] []]; reflexivity. Qed.

Lemma toLowerCase_list s :
  list_ascii_of_string (JsString.toLowerCase s)
  = map JsString.lower_char (list_ascii_of_string s).
Proof. induction s; simpl; congruence. Qed.

Lemma toLowerCase_of_list l :
  JsString.toLowerCase (string_of_list_ascii l)
  = string_of_list_ascii (map JsString.lower_char l).
Proof. induction l; simpl; congruence. Qed.

Lemma trimStart_lower l :
  JsString.trimStart (map JsString.lower_char l)
  = map JsString.lower_char (JsString.trimStart l).
Proof.
  induction l as [|c l IH]; simpl; auto.
  rewrite is_space_lower. destruct (JsString.is_space c); auto.
Qed.

Lemma trim_lower_commute s :
  JsString.trim (JsString.toLowerCase s) = JsString.toLowerCase (JsString.trim s).
Proof.
  unfold JsString.trim.
  rewrite toLowerCase_list, toLowerCase_of_list, trimStart_lower, <- map_rev,
    trimStart_lower, <- map_rev.
  reflexivity.
Qed.

Lemma trim_lower_normal l a b r :
  is_blank l = true -> is_blank r = true ->
  JsString.toLowerCase a = JsString.toLowerCase b ->
  trim_lower (l ++ a ++ r) = trim_lower b.
Proof.
  intros Hl Hr Hab. unfold trim_lower.
  rewrite (trim_blank l a r Hl Hr), <- !trim_lower_commute. now rewrite Hab.
Qed.

(** X12. Answers are compared without regard to case and to surrounding
    white space: a submission that differs from another only in the case of
    its letters and in white space put before and after it gets the same
    verdict and marks, from the live route for every question, and from the
    submit route for every question that is not of type matching or
    ordering. The strings are those of code units below 256, where the
    white space of [trim] is the code units 9 to 13, 32 and 160 (the
    no-break space) and the letters with a lower case are A to Z and the
    code units 192 to 222 but 215. *)
Theorem scoring_ignores_case_and_margins
    (JSON_parse : string -> option json) (q : Question) (l a b r : string) :
  is_blank l = true -> is_blank r = true ->
  JsString.toLowerCase a = JsString.toLowerCase b ->
  Live.score q (Some (JStr (l ++ a ++ r))) = Live.score q (Some (JStr b))
  /\ (question_type q <> "matching" -> question_type q <> "ordering" ->
      score_async JSON_parse q (Some (JStr (l ++ a ++ r)))
      = score_async JSON_parse q (Some (JStr b))).
Proof.
  intros Hl Hr Hab. pose proof (trim_lower_normal l a b r Hl Hr Hab) as Hn. split.
  - unfold Live.score, Live.isCorrect, optional_trim_lower. now rewrite Hn.
  - intros Hm Ho. unfold score_async, plain_trim_lower. rewrite Hn.
    apply String.eqb_neq in Hm, Ho. now rewrite Hm, Ho.
Qed.

(** ** The generator's questions under the scoring switch *)

(** X13. A question as the generator tool builds it, of any type and
    difficulty, answered with its own canonical answer, is scored correct
    with the full marks by the live route and, whenever [JSON.parse] reads
    back the two JSON texts the generator wrote, by the submit route. *)
Theorem generated_answer_gets_full_marks
    (JSON_parse : string -> option json)
    (i topic_title subject : string) (grade_level material_text : option string)
    (qType diff : string) :
  JSON_parse (Json.stringify Generator.pairs) = Some Generator.pairs ->
  JSON_parse (Json.stringify (JArr [JNum 0; JNum 1; JNum 2; JNum 3]))
  = Some (JArr [JNum 0; JNum 1; JNum 2; JNum 3]) ->
  let q := Generator.question i topic_title subject grade_level material_text qType diff in
  Live.score q (Some (JStr (correct_answer q))) = Scored true (marks q)
  /\ score_async JSON_parse q (Some (JStr (correct_answer q))) = Scored true (marks q).
Proof.
  intros Hpairs Horder q. split.
  - unfold Live.score, Live.isCorrect, optional_trim_lower, opt_string_eqb.
    now rewrite String.eqb_refl.
  - unfold score_async, plain_trim_lower, q.
    cbn [question_type correct_answer marks options Generator.question].
    unfold Generator.correct_answer_of.
    destruct (String.eqb qType "mcq") eqn:E1; simpl orb.
    { now rewrite String.eqb_refl. }
    destruct (String.eqb qType "true_false") eqn:E2; simpl orb.
    { now rewrite String.eqb_refl. }
    destruct (String.eqb qType "fill_in_blank") eqn:E3.
    { apply String.eqb_eq in E3. subst qType. reflexivity. }
    destruct (String.eqb qType "matching") eqn:E4.
    { unfold matching_try.
      cbn [correct_answer marks Generator.question Json.to_string_opt Json.to_string].
      unfold Generator.correct_answer_of.
      rewrite E1, E2, E3, E4, Hpairs. cbv -[round_ratio Generator.marks_of].
      now rewrite (round_ratio_all _ 3). }
    destruct (String.eqb qType "ordering") eqn:E5.
    { unfold ordering_try.
      cbn [correct_answer marks Generator.question Json.to_string_opt Json.to_string].
      unfold Generator.correct_answer_of.
      rewrite E1, E2, E3, E4, E5, Horder. reflexivity. }
    cbv zeta. now rewrite String.eqb_refl.
Qed.

(** ** The scoring loop of the submit route *)

Lemma question_map_In_fold qs m x :
  In x (fold_left (fun m q => JsMap.set (qid q) q m) qs m) -> In x m \/ In (snd x) qs.
Proof.
  revert m. induction qs as [|q qs IH]; simpl; intros m; auto.
  intros H. destruct (IH _ H) as [Hin|Hin]; auto.
  apply JsMap_In_set in Hin. destruct Hin as [Hin| ->]; auto.
Qed.

Lemma question_map_get qs id q :
  JsMap.get id (question_map qs) = Some q -> In q qs.
Proof.
  intros H. apply JsMap_get_In in H.
  destruct (question_map_In_fold qs [] _ H) as [[]|Hin]. exact Hin.
Qed.

Section SubmitLoopFacts.

Variable JSON_parse : string -> option json.

Lemma grade_loop_spec qm subs ts tm recs ts' tm' recs' :
  grade_loop JSON_parse qm subs ts tm recs = Some (ts', tm', recs') ->
  exists added,
    recs' = (recs ++ added)%list
    /\ ts' = ts + Zsum (map g_marks_awarded added)
    /\ map g_question_id added
       = filter (fun id => JsMap.has id qm)
           (flat_map (fun ans => match entry_id ans with Some id => [id] | None => [] end)
              subs)
    /\ ((forall id q, JsMap.get id qm = Some q -> 0 <= marks q) ->
        0 <= ts' - ts <= tm' - tm).
Proof.
  revert ts tm recs. induction subs as [|ans subs IH]; intros ts tm recs.
  - simpl. intros [= <- <- <-]. exists []. rewrite app_nil_r.
    split; [reflexivity|]. split; [simpl; lia|]. split; [reflexivity|].
    intros _. lia.
  - cbn [grade_loop flat_map]. unfold entry_id.
    assert (Hskip : grade_loop JSON_parse qm subs ts tm recs = Some (ts', tm', recs') ->
      exists added,
        recs' = (recs ++ added)%list
        /\ ts' = ts + Zsum (map g_marks_awarded added)
        /\ map g_question_id added
           = filter (fun id => JsMap.has id qm)
               ([] ++ flat_map
                  (fun ans => match entry_id ans with Some id => [id] | None => [] end)
                  subs)
        /\ ((forall id q, JsMap.get id qm = Some q -> 0 <= marks q) ->
            0 <= ts' - ts <= tm' - tm)) by apply IH.
    unfold Json.get_prop. destruct ans as [| | | | |fs]; try discriminate; try exact Hskip.
    destruct (Json.obj_lookup "question_id" fs) as [[| | |id| |]|]; try exact Hskip.
    set (answer := Json.obj_lookup "answer" fs). cbn [app filter].
    destruct (JsMap.get id qm) as [q|] eqn:Hget.
    + assert (Hhas : JsMap.has id qm = true) by (unfold JsMap.has; now rewrite Hget).
      destruct (score_async JSON_parse q answer) as [c m|] eqn:Hs; try discriminate.
      intros H. destruct (IH _ _ _ H) as (added & -> & -> & Hids & Hb).
      exists (mkGraded id answer c m :: added).
      rewrite <- app_assoc. simpl. rewrite Hhas.
      split; [reflexivity|]. split; [lia|]. split; [now rewrite Hids|].
      intros Hpos. specialize (Hb Hpos).
      pose proof (score_async_bounds JSON_parse q _ c m (Hpos _ _ Hget) Hs). lia.
    + assert (Hhas : JsMap.has id qm = false) by (unfold JsMap.has; now rewrite Hget).
      intros H. destruct (IH _ _ _ H) as (added & -> & -> & Hids & Hb).
      exists added. rewrite Hhas.
      split; [reflexivity|]. split; [reflexivity|]. split; [exact Hids|exact Hb].
Qed.

(** X14. When the scoring loop of the submit route runs to its end, the
    total score is the sum of the marks_awarded of the answer records; the
    records are those of the submitted answers whose question id belongs to
    the quiz, in the order submitted, the other answers being skipped; and
    when no question has negative marks the total score lies between 0 and
    the total marks, so that the percentage lies between 0 and 100. *)
Theorem submitted_score_adds_up
    (qs : list Question) (submittedAnswers : json)
    (totalScore totalMarks : Z) (answerRecords : list Graded) :
  grade JSON_parse qs submittedAnswers = Some (totalScore, totalMarks, answerRecords) ->
  totalScore = Zsum (map g_marks_awarded answerRecords)
  /\ map g_question_id answerRecords
     = filter (known_question qs) (submitted_ids submittedAnswers)
  /\ (Forall (fun q => 0 <= marks q) qs ->
      0 <= totalScore <= totalMarks
      /\ (0 <= percentage totalScore totalMarks)%Q
      /\ (percentage totalScore totalMarks <= 100)%Q).
Proof.
  unfold grade, submitted_ids. intros H.
  destruct (iterate submittedAnswers) as [subs|]; [|discriminate].
  destruct (grade_loop_spec _ _ _ _ _ _ _ _ H) as (added & -> & -> & Hids & Hb).
  split; [simpl; lia|]. split; [exact Hids|].
  intros Hpos.
  assert (Hin : 0 <= 0 + Zsum (map g_marks_awarded added) <= totalMarks).
  { assert (0 <= 0 + Zsum (map g_marks_awarded added) - 0 <= totalMarks - 0); [|lia].
    apply Hb. intros id q Hget. rewrite Forall_forall in Hpos. apply Hpos.
    eapply question_map_get; eauto. }
  split; [exact Hin|]. now apply percentage_bounds.
Qed.

End SubmitLoopFacts.

(** * Properties of the gamification *)


Lemma calculateLevel_value xp :
  0 <= xp -> calculateLevel xp = Some (Z.sqrt (xp / 100) + 1).
Proof.
  intros Hxp. unfold calculateLevel.
  destruct (xp <? 0) eqn:E; [apply Z.ltb_lt in E; lia|reflexivity].
Qed.

Lemma calculateLevel_spec xp L :
  calculateLevel xp = Some L ->
  0 <= xp /\ 1 <= L /\ 100 * (L - 1) ^ 2 <= xp < 100 * L ^ 2.
Proof.
  unfold calculateLevel. destruct (xp <? 0) eqn:E; [discriminate|].
  apply Z.ltb_ge in E. intros [= <-]. split; [exact E|].
  assert (Hq : 0 <= xp / 100) by (apply Z.div_pos; lia).
  pose proof (Z.sqrt_spec (xp / 100) Hq) as Hs. cbv zeta in Hs.
  pose proof (Z.sqrt_nonneg (xp / 100)) as Hs0.
  pose proof (Z.mul_div_le xp 100 ltac:(lia)) as Hd1.
  pose proof (Z.mul_succ_div_gt xp 100 ltac:(lia)) as Hd2.
  set (s := Z.sqrt (xp / 100)) in *. set (d := xp / 100) in *.
  replace (s + 1 - 1) with s by lia. rewrite !Z.pow_2_r.
  split; [lia|]. split; nia.
Qed.

Lemma calculateLevel_unique xp L :
  0 <= xp -> 1 <= L -> 100 * (L - 1) ^ 2 <= xp < 100 * L ^ 2 ->
  calculateLevel xp = Some L.
Proof.
  intros Hxp HL. rewrite !Z.pow_2_r. intros [Hlo Hhi].
  rewrite (calculateLevel_value xp Hxp). f_equal.
  assert (Hs : Z.sqrt (xp / 100) = L - 1); [|lia].
  apply Z.sqrt_unique. split.
  - apply Z.div_le_lower_bound; lia.
  - apply Z.div_lt_upper_bound; lia.
Qed.

Lemma calculateLevel_mono a b L :
  calculateLevel a = Some L -> a <= b ->
  exists M, calculateLevel b = Some M /\ L <= M.
Proof.
  intros Ha Hab. destruct (calculateLevel_spec a L Ha) as [H0 _].
  rewrite (calculateLevel_value a H0) in Ha. injection Ha as <-.
  exists (Z.sqrt (b / 100) + 1). split; [apply calculateLevel_value; lia|].
  assert (Z.sqrt (a / 100) <= Z.sqrt (b / 100)); [|lia].
  apply Z.sqrt_le_mono. apply Z.div_le_mono; lia.
Qed.

(** X15. For XP of zero or more the level is the one whose band holds the
    XP: level L, from 1 up, is held exactly from 100 (L - 1)^2 XP up to but
    not including 100 L^2 XP, and more XP never gives a lower level. (For
    negative XP the level is not a number.) *)
Theorem level_bands (xp : Z) :
  0 <= xp ->
  (forall L, calculateLevel xp = Some L
             <-> 1 <= L /\ 100 * (L - 1) ^ 2 <= xp < 100 * L ^ 2)
  /\ (forall more, xp <= more ->
       exists L M, calculateLevel xp = Some L /\ calculateLevel more = Some M /\ L <= M).
Proof.
  intros Hxp. split.
  - intros L. split.
    + intros H. now apply calculateLevel_spec in H.
    + intros [HL Hband]. now apply calculateLevel_unique.
  - intros more Hmore. exists (Z.sqrt (xp / 100) + 1).
    destruct (calculateLevel_mono xp more _ (calculateLevel_value xp Hxp) Hmore)
      as (M & HM & Hle).
    exists M. split; [now apply calculateLevel_value|]. split; assumption.
Qed.

(** X16. For a profile whose level is the level of its XP, the progress
    figures of the profile route are in range: the XP gained inside the
    level is at least 0 and less than the XP the level spans, which is
    100 (2 level - 1), and the progress percentage lies between 0 and
    100. *)
Theorem progress_in_range (p : StudentProfile) :
  calculateLevel (xp_total p) = Some (level p) ->
  0 <= xp_in_level p < xp_needed p
  /\ xp_needed p = 100 * (2 * level p - 1)
  /\ 0 <= xp_progress p <= 100.
Proof.
  intros Hlevel.
  destruct (calculateLevel_spec (xp_total p) _ Hlevel) as (Hxp & H1 & Hband).
  unfold xp_progress, xp_in_level, xp_needed in *.
  rewrite !Z.pow_2_r in *.
  assert (Hin : 0 <= xp_total p - (level p - 1) * (level p - 1) * 100
                < level p * level p * 100 - (level p - 1) * (level p - 1) * 100)
    by lia.
  split; [exact Hin|]. split; [lia|].
  destruct (0 <? _) eqn:E; [|lia].
  apply round_ratio_bounds; lia.
Qed.




(** The streak follows the calendar: a first submission starts it at
    1; a submission on the day after the last one extends it by one; one
    after a gap of two days or more restarts it at 1; and one on the day of
    the last submission, or dated before it, leaves it as it is. *)
Lemma streak_follows_calendar (p : StudentProfile) (f : SubmitFacts) (g : Gamified) :
  gamify p f = Some g ->
  let after := profile_after g in
  match last_quiz_date p with
  | None => current_streak after = 1
  | Some last =>
      (today f = last + 1 -> current_streak after = current_streak p + 1)
      /\ (last + 1 < today f -> current_streak after = 1)
      /\ (today f <= last -> current_streak after = current_streak p)
  end
  /\ longest_streak after = Z.max (longest_streak p) (current_streak after).
Proof.
  unfold gamify. destruct (badge_checks p f) as [currentBadges newBadges].
  cbv zeta. destruct (calculateLevel _) as [newLevel|]; [|discriminate].
  intros [= <-]. cbn.
  split; [|reflexivity].
  unfold new_streak. destruct (last_quiz_date p) as [last|]; [|reflexivity].
  cbv zeta. repeat split; intros H.
  - replace (today f - last) with 1 by lia. reflexivity.
  - destruct (today f - last =? 1) eqn:E1; [apply Z.eqb_eq in E1; lia|].
    destruct (1 <? today f - last) eqn:E2; [reflexivity|apply Z.ltb_ge in E2; lia].
  - destruct (today f - last =? 1) eqn:E1; [apply Z.eqb_eq in E1; lia|].
    destruct (1 <? today f - last) eqn:E2; [apply Z.ltb_lt in E2; lia|reflexivity].
Qed.

(** ** Badges *)

Lemma has_badge_In b l : has_badge b l = true <-> In b l.
Proof.
  unfold has_badge. rewrite existsb_exists. split.
  - intros [x [Hin Heq]]. apply String.eqb_eq in Heq. now subst.
  - intros Hin. exists b. split; auto. apply String.eqb_refl.
Qed.

Lemma has_badge_not_In b l : has_badge b l = false <-> ~ In b l.
Proof.
  rewrite <- has_badge_In. destruct (has_badge b l); split; congruence.
Qed.

Lemma NoDup_snoc {A} (l : list A) x : NoDup l -> ~ In x l -> NoDup (l ++ [x]).
Proof.
  intros Hnd Hx. apply (Permutation_NoDup (Permutation_cons_append _ _)).
  now constructor.
Qed.

Lemma Set_from_spec l :
  NoDup (Set_from l) /\ forall b, In b (Set_from l) <-> In b l.
Proof.
  unfold Set_from.
  assert (H : forall s,
             NoDup s ->
             NoDup (fold_left (fun s b => if has_badge b s then s else (s ++ [b])%list) l s)
             /\ forall b, In b (fold_left (fun s b => if has_badge b s then s
                                                     else (s ++ [b])%list) l s)
                          <-> In b s \/ In b l).
  { induction l as [|x l IH]; intros s Hs; simpl.
    - split; auto. intros b. tauto.
    - destruct (has_badge x s) eqn:E.
      + destruct (IH s Hs) as [H1 H2]. split; auto.
        intros b. rewrite H2. apply has_badge_In in E.
        split; [tauto|]. intros [?|[<-|?]]; auto.
      + apply has_badge_not_In in E.
        destruct (IH (s ++ [x])%list (NoDup_snoc s x Hs E)) as [H1 H2]. split; auto.
        intros b. rewrite H2, in_app_iff. simpl. tauto. }
  destruct (H [] (NoDup_nil _)) as [H1 H2]. split; auto.
  intros b. rewrite H2. simpl. tauto.
Qed.





(** ** The XP leaderboard *)





Section Upsert.

Variables (userId : string) (xp now db_now : Z) (period periodKey : string).




End Upsert.


(** * Properties of the event stream *)

Lemma inbox_of_batch c msg kept :
  NoDup kept ->
  map snd (filter (fun w : nat * string => Nat.eqb (fst w) c)
                  (map (fun c' => (c', msg)) kept))
  = if existsb (Nat.eqb c) kept then [msg] else [].
Proof.
  induction 1 as [|x l Hx Hnd IH]; simpl; auto.
  rewrite (Nat.eqb_sym c x). destruct (Nat.eqb x c) eqn:E; simpl.
  - apply Nat.eqb_eq in E. subst x. rewrite IH.
    destruct (existsb (Nat.eqb c) l) eqn:El; auto.
    apply existsb_exists in El. destruct El as [y [Hy Hcy]].
    apply Nat.eqb_eq in Hcy. subst y. contradiction.
  - exact IH.
Qed.

Lemma existsb_filter_false (f : nat -> bool) c l :
  existsb (Nat.eqb c) l = false -> existsb (Nat.eqb c) (filter f l) = false.
Proof.
  induction l as [|x l IH]; simpl; auto.
  destruct (Nat.eqb c x) eqn:E; simpl; try discriminate.
  intros H. destruct (f x); simpl; rewrite ?E; auto.
Qed.

Section StreamFacts.

Variable writable : nat -> nat -> bool.

Lemma broadcast_inbox c e ch :
  NoDup (sseClients ch) ->
  inbox c (broadcast writable e ch)
  = (inbox c ch
       ++ if existsb (Nat.eqb c) (sseClients (broadcast writable e ch))
          then [sse_message e] else [])%list.
Proof.
  intros Hnd. unfold inbox, broadcast. simpl.
  rewrite filter_app, map_app. f_equal.
  apply inbox_of_batch. now apply NoDup_filter.
Qed.

Lemma broadcast_all_clients es ch :
  NoDup (sseClients ch) ->
  NoDup (sseClients (broadcast_all writable es ch))
  /\ incl (sseClients (broadcast_all writable es ch)) (sseClients ch).
Proof.
  revert ch. induction es as [|e es IH]; intros ch Hnd; simpl.
  - split; auto. apply incl_refl.
  - destruct (IH (broadcast writable e ch)) as [H1 H2].
    + simpl. now apply NoDup_filter.
    + split; auto. eapply incl_tran; [exact H2|]. simpl. apply incl_filter.
Qed.

Lemma broadcast_all_gone c es ch :
  NoDup (sseClients ch) ->
  existsb (Nat.eqb c) (sseClients ch) = false ->
  inbox c (broadcast_all writable es ch) = inbox c ch.
Proof.
  revert ch. induction es as [|e es IH]; intros ch Hnd Hgone; simpl; auto.
  assert (Hgone' : existsb (Nat.eqb c) (sseClients (broadcast writable e ch)) = false)
    by (simpl; now apply existsb_filter_false).
  rewrite IH; auto.
  - rewrite broadcast_inbox by exact Hnd. rewrite Hgone'. apply app_nil_r.
  - simpl. now apply NoDup_filter.
Qed.

(** X20. A run of broadcasts over distinct connections: a connection that
    is still among the clients at the end was written every message of the
    run, in the order broadcast; any connection was written a beginning of
    that sequence and nothing after the write that threw; and the clients
    at the end are among those at the start, none added. *)
Theorem broadcasts_arrive_in_order (es : list SseEvent) (ch : Channel) :
  NoDup (sseClients ch) ->
  let ch' := broadcast_all writable es ch in
  incl (sseClients ch') (sseClients ch)
  /\ (forall c, In c (sseClients ch') ->
                inbox c ch' = (inbox c ch ++ map sse_message es)%list)
  /\ (forall c, exists n,
         inbox c ch' = (inbox c ch ++ firstn n (map sse_message es))%list).
Proof.
  intros Hnd. split; [apply broadcast_all_clients; exact Hnd|]. split.
  - revert ch Hnd. induction es as [|e es IH]; intros ch Hnd c Hin; simpl in *.
    + now rewrite app_nil_r.
    + assert (Hnd' : NoDup (sseClients (broadcast writable e ch)))
        by (simpl; now apply NoDup_filter).
      rewrite (IH _ Hnd' c Hin), broadcast_inbox by exact Hnd.
      destruct (broadcast_all_clients es _ Hnd') as [_ Hincl].
      assert (Hc : existsb (Nat.eqb c) (sseClients (broadcast writable e ch)) = true).
      { apply existsb_exists. exists c. split; [now apply Hincl|apply Nat.eqb_refl]. }
      rewrite Hc, <- app_assoc. reflexivity.
  - revert ch Hnd. induction es as [|e es IH]; intros ch Hnd c; simpl.
    + exists 0%nat. now rewrite app_nil_r.
    + assert (Hnd' : NoDup (sseClients (broadcast writable e ch)))
        by (simpl; now apply NoDup_filter).
      destruct (existsb (Nat.eqb c) (sseClients (broadcast writable e ch))) eqn:Hc.
      * destruct (IH _ Hnd' c) as [n Hn]. exists (S n).
        rewrite Hn, broadcast_inbox by exact Hnd. rewrite Hc, <- app_assoc. reflexivity.
      * exists 0%nat. rewrite (broadcast_all_gone c es _ Hnd' Hc).
        rewrite broadcast_inbox by exact Hnd. rewrite Hc. reflexivity.
Qed.

End StreamFacts.

(** * Properties of the quiz generator tool *)

Lemma generate_type_from a qType todo i acc z :
  z = Z.of_nat (List.length acc) ->
  let n := ga_num_questions a in
  let ds := difficulties (ga_difficulty a) in
  let m := Nat.min todo (n - List.length acc) in
  generate_type a qType todo i (z, acc)
  = (Z.of_nat (List.length acc + m),
     (acc ++ map (fun d => generated a qType
                             (nth ((i + d) mod List.length ds) ds EmptyString)
                             (Z.of_nat (List.length acc + d) + 1))
                 (seq 0 m))%list).
Proof.
  cbv zeta. revert i acc z. induction todo as [|todo IH]; intros i acc z Hz.
  - simpl. now rewrite Nat.add_0_r, app_nil_r, Hz.
  - cbn [generate_type snd fst].
    destruct (List.length acc <? ga_num_questions a)%nat eqn:E.
    + apply Nat.ltb_lt in E.
      rewrite IH by (rewrite length_app; simpl; lia).
      rewrite length_app. simpl List.length.
      replace (Nat.min (S todo) (ga_num_questions a - List.length acc))
        with (S (Nat.min todo (ga_num_questions a - (List.length acc + 1)))) by lia.
      f_equal; [f_equal; lia|].
      rewrite <- app_assoc. f_equal. simpl. f_equal.
      * rewrite !Nat.add_0_r, Hz. reflexivity.
      * rewrite <- seq_shift, map_map. apply map_ext. intros d.
        f_equal; [do 2 f_equal; lia|lia].
    + apply Nat.ltb_ge in E.
      replace (Nat.min (S todo) (ga_num_questions a - List.length acc)) with 0%nat by lia.
      simpl. now rewrite Nat.add_0_r, app_nil_r, Hz.
Qed.

Lemma ceil_covers n k : (0 < k)%nat -> (n <= k * questionsPerType n k)%nat.
Proof.
  intros Hk. unfold questionsPerType.
  pose proof (Nat.mul_succ_div_gt (n + k - 1) k ltac:(lia)). lia.
Qed.

Lemma seq_from L m : seq L m = map (fun d => (L + d)%nat) (seq 0 m).
Proof.
  induction L as [|L IH]; simpl.
  - now rewrite map_id.
  - rewrite <- seq_shift, IH, map_map. reflexivity.
Qed.

Lemma generate_blocks a pre suf :
  ga_question_types a = (pre ++ suf)%list ->
  let n := ga_num_questions a in
  let per := questionsPerType n (List.length (ga_question_types a)) in
  let upto t := Nat.min n (t * per) in
  fold_left (fun st qType => generate_type a qType per 0 st) suf
            (Z.of_nat (upto (List.length pre)),
             map (planned a) (seq 0 (upto (List.length pre))))
  = (Z.of_nat (upto (List.length (ga_question_types a))),
     map (planned a) (seq 0 (upto (List.length (ga_question_types a))))).
Proof.
  cbv zeta. revert pre. induction suf as [|qType suf IH]; intros pre Hty.
  - simpl. rewrite Hty, app_nil_r. reflexivity.
  - cbn [fold_left].
    pose proof (IH (pre ++ [qType])%list) as IH'.
    rewrite <- app_assoc in IH'. specialize (IH' Hty).
    rewrite length_app in IH'. simpl List.length in IH'.
    rewrite <- IH'. f_equal.
    set (n := ga_num_questions a).
    set (per := questionsPerType n (List.length (ga_question_types a))).
    set (t := List.length pre).
    set (L := Nat.min n (t * per)).
    assert (Hlen : List.length (map (planned a) (seq 0 L)) = L)
      by (now rewrite length_map, length_seq).
    rewrite (generate_type_from a qType per 0 _ _ (eq_sym (f_equal Z.of_nat Hlen))).
    rewrite Hlen. fold n.
    set (m := Nat.min per (n - L)).
    assert (Hnext : Nat.min n ((t + 1) * per) = (L + m)%nat) by (unfold m, L; nia).
    rewrite Hnext. f_equal.
    rewrite seq_app, map_app. f_equal. simpl.
    rewrite (seq_from L m), map_map. apply map_ext_in. intros d Hd.
    apply in_seq in Hd.
    assert (HL : L = (t * per)%nat) by (unfold m, L in *; nia).
    assert (Hper : (d < per)%nat) by (unfold m in Hd; lia).
    unfold planned. fold n per. rewrite HL.
    rewrite Nat.div_add_l by lia. rewrite (Nat.div_small d per) by lia.
    rewrite Nat.add_0_r.
    replace ((t * per + d) mod per)%nat with d
      by (rewrite Nat.add_comm, Nat.Div0.mod_add; symmetry; now apply Nat.mod_small).
    rewrite Hty. unfold t. rewrite nth_middle. reflexivity.
Qed.

Lemma generated_closed_form (a : GenArgs) :
  generatedQuestions a
  = map (planned a)
        (seq 0 match ga_question_types a with
               | [] => 0%nat
               | _ :: _ => ga_num_questions a
               end).
Proof.
  unfold generatedQuestions.
  pose proof (generate_blocks a [] (ga_question_types a) eq_refl) as H.
  cbv zeta in H. simpl in H. rewrite Nat.min_0_r in H. simpl in H. rewrite H. simpl.
  f_equal. f_equal.
  destruct (ga_question_types a) as [|ty tys] eqn:E.
  - simpl. apply Nat.min_0_r.
  - pose proof (ceil_covers (ga_num_questions a) (List.length (ty :: tys))
                  ltac:(simpl; lia)).
    rewrite Nat.mul_comm in H0. lia.
Qed.

(** X21. For a whole [num_questions] and at least one question type, the
    tool returns exactly [num_questions] questions, whatever the number of
    types; they are made type by type, ceil (num_questions / number of
    types) for each until [num_questions] are made: the question at
    position j, counted from 0, has [order_index] j + 1, the type at
    position j div per-type among the requested types, and the difficulty
    at position (j mod per-type) mod the length of the difficulty cycle. A
    type whose turn comes once [num_questions] are made gets no question. *)
Theorem generated_questions_by_position (a : GenArgs) :
  ga_question_types a <> [] ->
  List.length (generatedQuestions a) = ga_num_questions a
  /\ forall j, (j < ga_num_questions a)%nat ->
               nth_error (generatedQuestions a) j = Some (planned a j).
Proof.
  intros Hty. rewrite generated_closed_form.
  destruct (ga_question_types a) as [|ty tys]; [congruence|].
  split.
  - now rewrite length_map, length_seq.
  - intros j Hj. rewrite nth_error_map, nth_error_seq.
    apply Nat.ltb_lt in Hj. now rewrite Hj.
Qed.

Lemma marks_of_range diff : 1 <= Generator.marks_of diff <= 3.
Proof.
  unfold Generator.marks_of. destruct (String.eqb diff "easy"); [lia|].
  destruct (String.eqb diff "medium"); lia.
Qed.

(** X22. Every question the tool makes has 1, 2 or 3 marks, so the total
    marks it reports lie between the number of questions made and three
    times that number. *)
Theorem generated_marks_in_range (a : GenArgs) :
  Forall (fun g => 1 <= marks (gen_question g) <= 3) (generatedQuestions a)
  /\ Z.of_nat (List.length (generatedQuestions a)) <= generated_total_marks a
     <= 3 * Z.of_nat (List.length (generatedQuestions a)).
Proof.
  assert (Hall : Forall (fun g => 1 <= marks (gen_question g) <= 3) (generatedQuestions a)).
  { rewrite generated_closed_form. apply Forall_forall. intros g Hin.
    apply in_map_iff in Hin. destruct Hin as (j & <- & _). apply marks_of_range. }
  split; [exact Hall|]. unfold generated_total_marks.
  assert (H : forall l acc,
             Forall (fun g => 1 <= marks (gen_question g) <= 3) l ->
             acc + Z.of_nat (List.length l)
             <= fold_left (fun sum g => sum + marks (gen_question g)) l acc
             <= acc + 3 * Z.of_nat (List.length l)).
  { induction l as [|g l IH]; intros acc Hl; simpl List.length; simpl fold_left; [lia|].
    inversion Hl as [|? ? Hg Hl']; subst. specialize (IH (acc + marks (gen_question g)) Hl').
    lia. }
  specialize (H _ 0 Hall). lia.
Qed.

(** * Properties of the analytics of the questions *)

Lemma Set_from_snoc l x :
  Set_from (l ++ [x]) = if has_badge x (Set_from l) then Set_from l
                        else (Set_from l ++ [x])%list.
Proof. unfold Set_from. now rewrite fold_left_app. Qed.

Lemma answerCounts_snoc l a :
  answerCounts (l ++ [a])
  = JsMap.set (wrong_key a)
      (match JsMap.get (wrong_key a) (answerCounts l) with Some c => c | None => 0 end + 1)
      (answerCounts l).
Proof. unfold answerCounts. now rewrite fold_left_app. Qed.

Lemma mostCommon_snoc counts e :
  mostCommon (counts ++ [e])
  = if snd (mostCommon counts) <? snd e then (Some (fst e), snd e) else mostCommon counts.
Proof. unfold mostCommon. now rewrite fold_left_app. Qed.

(** A map that holds [f k] under each key [k] of [S]. *)
Lemma tabulated_get (f : string -> Z) S k :
  JsMap.get k (map (fun k' => (k', f k')) S) = if has_badge k S then Some (f k) else None.
Proof.
  induction S as [|x S IH]; simpl; auto.
  destruct (String.eqb k x) eqn:E; simpl; auto.
  apply String.eqb_eq in E. now subst.
Qed.

Lemma tabulated_set (f : string -> Z) S k v :
  NoDup S -> In k S ->
  JsMap.set k v (map (fun k' => (k', f k')) S)
  = map (fun k' => (k', if String.eqb k k' then v else f k')) S.
Proof.
  induction S as [|x S IH]; simpl; [tauto|].
  intros Hnd Hin. inversion Hnd as [|? ? Hx HS]; subst.
  destruct (String.eqb k x) eqn:E.
  - apply String.eqb_eq in E. subst x. f_equal.
    apply map_ext_in. intros k' Hk'.
    destruct (String.eqb k k') eqn:E'; auto.
    apply String.eqb_eq in E'. now subst.
  - f_equal. apply IH; auto. destruct Hin as [->|]; auto.
    now rewrite String.eqb_refl in E.
Qed.

Lemma occurrences_snoc k keys x :
  occurrences k (keys ++ [x])
  = (occurrences k keys + if String.eqb x k then 1 else 0)%nat.
Proof.
  unfold occurrences. rewrite count_occ_app. simpl.
  destruct (string_dec x k) as [->|Hne].
  - now rewrite String.eqb_refl.
  - apply String.eqb_neq in Hne. now rewrite Hne.
Qed.

(** [answerCounts] holds, in the order of their first occurrence, each key
    with the number of its occurrences. *)
Lemma answerCounts_spec wrong :
  let keys := map wrong_key wrong in
  answerCounts wrong = map (fun k => (k, Z.of_nat (occurrences k keys))) (Set_from keys).
Proof.
  cbv zeta. induction wrong as [|a wrong IH] using rev_ind; [reflexivity|].
  rewrite answerCounts_snoc, map_app, IH. simpl map.
  set (keys := map wrong_key wrong). set (k := wrong_key a).
  destruct (Set_from_spec keys) as [Hnd Hin].
  rewrite tabulated_get, Set_from_snoc.
  destruct (has_badge k (Set_from keys)) eqn:E.
  - apply has_badge_In in E. rewrite tabulated_set by auto.
    apply map_ext. intros k'. rewrite occurrences_snoc.
    destruct (String.eqb k k') eqn:E'.
    + apply String.eqb_eq in E'. subst k'. f_equal. lia.
    + f_equal. lia.
  - pose proof E as E0. apply has_badge_not_In in E.
    rewrite JsMapFacts.set_absent by (rewrite tabulated_get; now rewrite E0).
    rewrite map_app. simpl. f_equal.
    + apply map_ext_in. intros k' Hk'. rewrite occurrences_snoc.
      destruct (String.eqb k k') eqn:E'.
      * apply String.eqb_eq in E'. now subst.
      * f_equal. lia.
    + rewrite occurrences_snoc, String.eqb_refl.
      assert (occurrences k keys = 0%nat)
        by (apply count_occ_not_In; now rewrite <- Hin).
      do 2 f_equal. lia.
Qed.

(** The loop over the entries keeps the first entry that holds the largest
    count. *)
Lemma mostCommon_spec (f : string -> Z) S :
  (forall k, In k S -> 0 < f k) ->
  match mostCommon (map (fun k => (k, f k)) S) with
  | (None, mx) => S = [] /\ mx = 0
  | (Some a, mx) =>
      mx = f a
      /\ exists pre suf, S = (pre ++ a :: suf)%list
                         /\ (forall k, In k pre -> f k < f a)
                         /\ (forall k, In k suf -> f k <= f a)
  end.
Proof.
  induction S as [|x S IH] using rev_ind; intros Hpos; [now split|].
  rewrite map_app. cbn [map]. rewrite mostCommon_snoc. simpl.
  assert (HS : forall k, In k S -> 0 < f k)
    by (intros k Hk; apply Hpos, in_app_iff; now left).
  specialize (IH HS).
  destruct (mostCommon (map (fun k => (k, f k)) S)) as [[a|] mx]; simpl.
  - destruct IH as (-> & pre & suf & -> & Hpre & Hsuf).
    destruct (f a <? f x) eqn:E.
    + apply Z.ltb_lt in E. split; auto.
      exists (pre ++ a :: suf)%list, []. repeat split; [|simpl; tauto].
      intros k Hk. apply in_app_iff in Hk. destruct Hk as [Hk|[<-|Hk]]; auto.
      * specialize (Hpre k Hk). lia.
      * specialize (Hsuf k Hk). lia.
    + apply Z.ltb_ge in E. split; auto.
      exists pre, (suf ++ [x])%list. rewrite <- app_assoc. repeat split; auto.
      intros k Hk. apply in_app_iff in Hk. destruct Hk as [Hk|[<-|[]]]; auto.
  - destruct IH as [-> ->].
    assert (Hx : 0 < f x) by (apply Hpos; now left).
    apply Z.ltb_lt in Hx. rewrite Hx. split; auto.
    exists [], []. repeat split; simpl; tauto.
Qed.

(** A key stands in the map before the keys that occur first after it. *)
Lemma Set_from_first keys : forall pre a suf,
  Set_from keys = (pre ++ a :: suf)%list ->
  exists kpre ksuf, keys = (kpre ++ a :: ksuf)%list
                    /\ ~ In a kpre /\ forall k, In k kpre -> In k pre.
Proof.
  induction keys as [|x keys IH] using rev_ind; intros pre a suf H.
  - exfalso. apply (app_cons_not_nil pre suf a). exact H.
  - rewrite Set_from_snoc in H. destruct (has_badge x (Set_from keys)) eqn:E.
    + destruct (IH _ _ _ H) as (kpre & ksuf & -> & Hno & Hin).
      exists kpre, (ksuf ++ [x])%list. rewrite <- app_assoc. auto.
    + apply has_badge_not_In in E. destruct (Set_from_spec keys) as [_ Hmem].
      destruct suf as [|s0 suf0].
      * apply app_inj_tail in H. destruct H as [H ->].
        exists keys, []. repeat split.
        -- now rewrite <- Hmem.
        -- intros k Hk. rewrite <- H. now apply Hmem.
      * destruct (@exists_last _ (s0 :: suf0) ltac:(discriminate)) as (suf' & y & Hsuf).
        rewrite Hsuf in H.
        change (pre ++ a :: suf' ++ [y])%list with (pre ++ (a :: suf') ++ [y])%list in H.
        rewrite app_assoc in H. apply app_inj_tail in H. destruct H as [H _].
        destruct (IH _ _ _ H) as (kpre & ksuf & -> & Hno & Hin).
        exists kpre, (ksuf ++ [x])%list. rewrite <- app_assoc. auto.
Qed.

Lemma filter_two_lengths {A} (p q : A -> bool) (l : list A) :
  (forall a, In a l -> p a && q a = false) ->
  (List.length (filter p l) + List.length (filter q l) <= List.length l)%nat
  /\ ((forall a, In a l -> p a || q a = true) ->
      (List.length (filter p l) + List.length (filter q l) = List.length l)%nat).
Proof.
  induction l as [|x l IH]; simpl; intros Hdis; [auto|].
  destruct IH as [IH1 IH2]; [auto|].
  pose proof (Hdis x (or_introl eq_refl)) as Hx.
  split.
  - destruct (p x), (q x); simpl in *; try discriminate; lia.
  - intros Hall. pose proof (Hall x (or_introl eq_refl)) as Hx'.
    specialize (IH2 (fun a Ha => Hall a (or_intror Ha))).
    destruct (p x), (q x); simpl in *; try discriminate; lia.
Qed.

(** X23. In the analytics of a question the answers counted correct and
    those counted incorrect are never more than the responses, and they add
    up to the responses when no answer row of the question has a null
    [is_correct] (a row with null counts as a response only); and
    [percent_correct] lies between 0 and 100. *)
Theorem question_counts_in_range
    (allAttempts : Z) (allAnswers : list AnswerRead) (q : Question) :
  let r := questionAnalytics allAttempts allAnswers q in
  qa_correct_count r + qa_incorrect_count r <= qa_total_responses r
  /\ ((forall a, In a (qAnswers allAnswers q) -> ar_is_correct a <> None) ->
      qa_correct_count r + qa_incorrect_count r = qa_total_responses r)
  /\ 0 <= qa_percent_correct r <= 100.
Proof.
  cbv zeta. unfold questionAnalytics. cbn -[round_ratio Z.of_nat].
  set (answers := qAnswers allAnswers q).
  destruct (filter_two_lengths marked_correct marked_incorrect answers) as [Hle Heq].
  { intros a _. unfold marked_correct, marked_incorrect.
    now destruct (ar_is_correct a) as [[|]|]. }
  split; [lia|]. split.
  - intros Hnn. rewrite <- Heq; [lia|].
    intros a Ha. specialize (Hnn a Ha). unfold marked_correct, marked_incorrect.
    now destruct (ar_is_correct a) as [[|]|].
  - destruct (0 <? Z.of_nat (List.length answers)) eqn:E; [|lia].
    apply Z.ltb_lt in E. apply round_ratio_bounds; lia.
Qed.

(** X24. The most common wrong answer of a question is null exactly when
    the question has no wrong answer with a text; otherwise it is the
    trimmed text of such an answer that occurs at least as often as every
    other one and, among those that occur as often, the one whose first
    occurrence in the rows read comes first. *)
Theorem most_common_wrong_answer_is_most_frequent
    (allAttempts : Z) (allAnswers : list AnswerRead) (q : Question) :
  let keys := map wrong_key (wrongAnswers allAnswers q) in
  match qa_most_common_wrong_answer (questionAnalytics allAttempts allAnswers q) with
  | None => wrongAnswers allAnswers q = []
  | Some ans =>
      (forall k, (occurrences k keys <= occurrences ans keys)%nat)
      /\ exists pre suf,
           keys = (pre ++ ans :: suf)%list
           /\ ~ In ans pre
           /\ forall k, In k pre -> (occurrences k keys < occurrences ans keys)%nat
  end.
Proof.
  cbv zeta. unfold questionAnalytics. cbn [qa_most_common_wrong_answer].
  rewrite answerCounts_spec.
  set (keys := map wrong_key (wrongAnswers allAnswers q)).
  destruct (Set_from_spec keys) as [_ Hmem].
  pose proof (mostCommon_spec (fun k => Z.of_nat (occurrences k keys)) (Set_from keys)) as H.
  cbv beta in H.
  assert (Hpos : forall k, In k (Set_from keys) -> 0 < Z.of_nat (occurrences k keys)).
  { intros k Hk. apply Hmem in Hk. unfold occurrences.
    apply (count_occ_In string_dec) in Hk. lia. }
  specialize (H Hpos).
  destruct (mostCommon _) as [[a|] mx]; simpl.
  - destruct H as (_ & pre & suf & HS & Hpre & Hsuf). split.
    + intros k. destruct (in_dec string_dec k keys) as [Hk|Hk].
      * apply Hmem in Hk. rewrite HS in Hk. apply in_app_iff in Hk.
        destruct Hk as [Hk|[<-|Hk]]; auto.
        -- specialize (Hpre k Hk). lia.
        -- specialize (Hsuf k Hk). lia.
      * unfold occurrences at 1. apply (count_occ_not_In string_dec) in Hk. lia.
    + destruct (Set_from_first keys pre a suf HS) as (kpre & ksuf & Hk & Hno & Hin).
      exists kpre, ksuf. repeat split; auto.
      intros k Hkp. specialize (Hpre k (Hin k Hkp)). lia.
  - destruct H as [HS _].
    destruct (wrongAnswers allAnswers q) as [|a l] eqn:E; auto. exfalso.
    assert (Hin : In (wrong_key a) (Set_from keys)) by (apply Hmem; unfold keys; now left).
    now rewrite HS in Hin.
Qed.

(** * The further properties on the examples *)

Lemma Scenario_reachable rs : reachable sample_env (run sample_env rs Scenario.w0).
Proof.
  apply reachable_run.
  apply (reach_start sample_env Scenario.quiz Scenario.host Scenario.qs). reflexivity.
Qed.

Lemma RankingExample_reachable rs :
  reachable sample_env
    (run sample_env rs (start_world RankingExample.created RankingExample.db0)).
Proof.
  apply reachable_run.
  apply (reach_start sample_env RankingExample.quiz RankingExample.host RankingExample.qs).
  reflexivity.
Qed.


Lemma refused_call_changes_nothing_witness :
  let w := run sample_env Scenario.with_removed Scenario.w0 in
  let r := Next Scenario.host 20000 in
  (forall code body,
     fst (handle sample_env r w) = Json code body -> code <> 200 -> step sample_env w r = w)
  /\ (fst (handle sample_env r w) = ServerError ->
      step sample_env w r = w
      \/ exists u now,
           r = Next u now /\ finalizing u w
           /\ status (session (step sample_env w r)) = ended
           /\ currentQuestionIndex (session (step sample_env w r))
              = currentQuestionIndex (session w) + 1
           /\ sse (step sample_env w r) = quiz_ended (session (step sample_env w r)) (sse w)).
Proof.
  intros w r. apply (refused_call_changes_nothing sample_env w r).
  apply Scenario_reachable.
Defined.

(** The same call on the example: the student s9 has no [users] row, the
    insert of the first attempt is rejected and the route answers 500, with
    the session ended, the event sent and no row stored; with the rows of
    [users] complete the same calls store an attempt for each of the two. *)
Lemma rejected_insert_example :
  let w := run sample_env Scenario.with_removed Scenario.w0 in
  let r := next sample_env Scenario.host 20000 w in
  fst r = ServerError
  /\ status (session (snd r)) = ended
  /\ List.length (sse (snd r)) = S (List.length (sse w))
  /\ quizAttempts (db (snd r)) = []
  /\ studentAnswers (db (snd r)) = [].
Proof. vm_compute. repeat split. Qed.

Lemma one_entry_per_student_witness :
  let w := run sample_env RankingExample.calls
             (start_world RankingExample.created RankingExample.db0) in
  NoDup (map fst (participants (session w)))
  /\ (forall k p, In (k, p) (participants (session w)) -> userId p = k)
  /\ ranks (leaderboard (session w))
     = map (fun k => Some (JNum (1 + Z.of_nat k)))
           (seq 0 (List.length (participants (session w)))).
Proof.
  intros w. apply (one_entry_per_student sample_env w).
  apply RankingExample_reachable.
Defined.

Lemma exhausted_session_is_closed_witness :
  let w := run sample_env Scenario.to_the_end Scenario.w0 in
  let rs := [Join Scenario.other_teacher; SubmitAnswer Scenario.S1 (answering (JStr "b")) 30000;
             Next Scenario.host 31000; End_ Scenario.host] in
  status (session (run sample_env rs w)) = ended
  /\ participants (session (run sample_env rs w)) = participants (session w).
Proof.
  intros w rs. apply (exhausted_session_is_closed sample_env rs w).
  split; [reflexivity|]. vm_compute. discriminate.
Defined.


Lemma score_within_total_witness :
  let w := run sample_env RankingExample.calls
             (start_world RankingExample.created RankingExample.db0) in
  exists p,
    JsMap.get "b" (participants (session w)) = Some p
    /\ 0 <= score p <= total_marks (questions (session w))
    /\ (0 <= percentage (score p) (total_marks (questions (session w))))%Q
    /\ (percentage (score p) (total_marks (questions (session w))) <= 100)%Q.
Proof.
  intros w.
  destruct (JsMap.get "b" (participants (session w))) as [p|] eqn:E;
    [|vm_compute in E; discriminate E].
  exists p. split; [reflexivity|].
  apply (score_within_total sample_env w) with (k := "b"%string).
  - apply RankingExample_reachable.
  - vm_compute. repeat constructor; discriminate.
  - apply JsMap_get_In. exact E.
Defined.

Lemma awarded_within_marks_witness : 0 <= 2 <= marks MatchingExample.q.
Proof.
  apply (awarded_within_marks MatchingExample.JSON_parse MatchingExample.q
           (Some (JStr MatchingExample.submitted)) false 2).
  - vm_compute. discriminate.
  - vm_compute. reflexivity.
Defined.

Lemma correct_gets_full_marks_witness :
  1 = marks Scenario.q1
  \/ (question_type Scenario.q1 = "matching" /\ 1 = 0
      /\ exists cp, MatchingExample.JSON_parse (correct_answer Scenario.q1) = Some cp
                    /\ iterate cp = Some []).
Proof.
  apply (correct_gets_full_marks MatchingExample.JSON_parse Scenario.q1
           (Some (JStr " b")) 1).
  vm_compute. reflexivity.
Defined.

Lemma scoring_ignores_case_and_margins_witness :
  let q := AccentExample.q in
  let l := AccentExample.margin in
  let a := AccentExample.upper in
  let b := AccentExample.lower in
  Live.score q (Some (JStr (l ++ a ++ "  "))) = Live.score q (Some (JStr b))
  /\ (question_type q <> "matching" -> question_type q <> "ordering" ->
      score_async MatchingExample.JSON_parse q (Some (JStr (l ++ a ++ "  ")))
      = score_async MatchingExample.JSON_parse q (Some (JStr b))).
Proof.
  apply (scoring_ignores_case_and_margins MatchingExample.JSON_parse AccentExample.q
           AccentExample.margin AccentExample.upper AccentExample.lower "  ");
    reflexivity.
Defined.

(** On the example the submission in capitals, after a no-break space, is
    the canonical answer. *)
Lemma accented_answer_example :
  Live.score AccentExample.q
    (Some (JStr (AccentExample.margin ++ AccentExample.upper)))
  = Scored true 1
  /\ score_async MatchingExample.JSON_parse AccentExample.q
       (Some (JStr (AccentExample.margin ++ AccentExample.upper)))
     = Scored true 1.
Proof. split; reflexivity. Qed.

(** The arithmetic is that of binary64: the division rounds 7/10 down, so
    that 45 * (7/10) is below 31.5 and is rounded to 31, where the exact
    product 31.5 would give 32; likewise 23 marks of 160 are 14.37 per
    cent, where the exact 14.375 would give 14.38. *)
Lemma binary64_examples :
  round_ratio 45 7 10 = 31
  /\ (percentage 23 160 == 1437 # 100)%Q
  /\ (JsNumber.div 7 10 < 7 # 10)%Q.
Proof. repeat split. Qed.

Lemma generated_answer_gets_full_marks_witness :
  let q := Generator.question "g1" "Cells" "Biology" (Some "Grade 9") None
             "matching" "hard" in
  Live.score q (Some (JStr (correct_answer q))) = Scored true (marks q)
  /\ score_async GeneratorExample.JSON_parse q (Some (JStr (correct_answer q)))
     = Scored true (marks q).
Proof.
  apply (generated_answer_gets_full_marks GeneratorExample.JSON_parse
           "g1" "Cells" "Biology" (Some "Grade 9") None "matching" "hard");
    vm_compute; reflexivity.
Defined.

Lemma submitted_score_adds_up_witness :
  1 = Zsum (map g_marks_awarded SubmitExample.records)
  /\ map g_question_id SubmitExample.records
     = filter (known_question Scenario.qs) (submitted_ids SubmitExample.subs)
  /\ (Forall (fun q => 0 <= marks q) Scenario.qs ->
      0 <= 1 <= 2
      /\ (0 <= percentage 1 2)%Q
      /\ (percentage 1 2 <= 100)%Q).
Proof.
  apply (submitted_score_adds_up MatchingExample.JSON_parse Scenario.qs SubmitExample.subs
           1 2 SubmitExample.records).
  vm_compute. reflexivity.
Defined.

Lemma level_bands_witness :
  (forall L, calculateLevel 250 = Some L
             <-> 1 <= L /\ 100 * (L - 1) ^ 2 <= 250 < 100 * L ^ 2)
  /\ (forall more, 250 <= more ->
       exists L M, calculateLevel 250 = Some L /\ calculateLevel more = Some M /\ L <= M).
Proof. apply (level_bands 250). lia. Defined.

Lemma progress_in_range_witness :
  0 <= xp_in_level SubmitExample.profile < xp_needed SubmitExample.profile
  /\ xp_needed SubmitExample.profile = 100 * (2 * level SubmitExample.profile - 1)
  /\ 0 <= xp_progress SubmitExample.profile <= 100.
Proof.
  apply (progress_in_range SubmitExample.profile). reflexivity.
Defined.



Lemma broadcasts_arrive_in_order_witness :
  let ch := StreamExample.channel in
  let es := StreamExample.events in
  let ch' := broadcast_all StreamExample.writable es ch in
  incl (sseClients ch') (sseClients ch)
  /\ (forall c, In c (sseClients ch') ->
                inbox c ch' = (inbox c ch ++ map sse_message es)%list)
  /\ (forall c, exists n,
         inbox c ch' = (inbox c ch ++ firstn n (map sse_message es))%list).
Proof.
  intros ch es.
  apply (broadcasts_arrive_in_order StreamExample.writable es ch).
  simpl. repeat constructor; simpl; intuition discriminate.
Defined.

Lemma generated_questions_by_position_witness :
  List.length (generatedQuestions GeneratorExample.args) = 5%nat
  /\ forall j, (j < 5)%nat ->
               nth_error (generatedQuestions GeneratorExample.args) j
               = Some (planned GeneratorExample.args j).
Proof.
  apply (generated_questions_by_position GeneratorExample.args). discriminate.
Defined.
